(** * The AWS ECS node ([nodes/Aws/ECS/AwsEcs.node.ts])

    A shallow embedding of the node's two option loaders ([getClusters],
    [getServices]) and of its [execute] method, together with the part of
    JavaScript they rely on: values and their truthiness, property reads,
    [Array.prototype.map], [String.prototype.split] and
    [String.prototype.trim].

    The node talks to AWS only through [awsApiRequest]; every call is
    awaited before the next statement runs.  The embedding threads a
    [World] through the code: the replies AWS is still going to give, and
    the requests sent so far. *)

From Stdlib Require Import List NArith Bool String Ascii Lia.
From Stdlib Require Import Floats.PrimFloat.
Import ListNotations.
Open Scope string_scope.
Open Scope list_scope.
Set Warnings "-register-all".

(** ** JavaScript values *)

(** A JavaScript string is a sequence of UTF-16 code units. *)
Definition jsstring := list N.

(** The string written as an ASCII literal in the source. *)
Definition lit (s : string) : jsstring :=
  map N_of_ascii (list_ascii_of_string s).

Fixpoint jsstring_eqb (a b : jsstring) : bool :=
  match a, b with
  | [], [] => true
  | x :: a', y :: b' => N.eqb x y && jsstring_eqb a' b'
  | _, _ => false
  end.

(** The values that parameters, request bodies and parsed responses are
    made of.  A number is an IEEE 754 binary64, as in JavaScript.  An object
    lists its own properties in insertion order. *)
Inductive JsValue : Type :=
| JUndefined
| JNull
| JBool (b : bool)
| JNum (x : float)
| JStr (s : jsstring)
| JArr (elements : list JsValue)
| JObj (properties : list (jsstring * JsValue)).

(** ToBoolean: [undefined], [null], [false], [+0], [-0], [NaN] and the empty
    string are falsy, everything else is truthy. *)
Definition truthy (v : JsValue) : bool :=
  match v with
  | JUndefined | JNull => false
  | JBool b => b
  | JNum x => negb (PrimFloat.eqb x PrimFloat.zero || PrimFloat.is_nan x)
  | JStr s => match s with [] => false | _ :: _ => true end
  | JArr _ | JObj _ => true
  end.

Fixpoint lookup (k : jsstring) (properties : list (jsstring * JsValue)) : JsValue :=
  match properties with
  | [] => JUndefined
  | (k', v) :: rest => if jsstring_eqb k k' then v else lookup k rest
  end.

(** [v.k] for the property names the node reads ([clusterArns],
    [serviceArns], [nextToken]), none of which is defined on a prototype:
    reading from [undefined] or [null] raises a TypeError ([None]); an object
    gives its own property or [undefined]; any other value gives
    [undefined]. *)
Definition get (v : JsValue) (k : jsstring) : option JsValue :=
  match v with
  | JUndefined | JNull => None
  | JObj properties => Some (lookup k properties)
  | _ => Some JUndefined
  end.

(** [obj.k = v] on an object given by its properties: an existing property
    keeps its place, a new one goes last. *)
Fixpoint set (properties : list (jsstring * JsValue)) (k : jsstring) (v : JsValue)
  : list (jsstring * JsValue) :=
  match properties with
  | [] => [(k, v)]
  | (k', v') :: rest =>
      if jsstring_eqb k k' then (k, v) :: rest else (k', v') :: set rest k v
  end.

(** [v.map(f)]: only an array has a [map] method; on anything else the call
    raises a TypeError ([None]). *)
Definition array_map {B : Type} (f : JsValue -> B) (v : JsValue) : option (list B) :=
  match v with
  | JArr elements => Some (map f elements)
  | _ => None
  end.

(** ** Strings: [split(',')] and [trim()] *)

Definition comma : N := 44%N.

(** [s.split(sep)] for a one-unit separator: the segments between the
    separators, in order; a string without separator, the empty one
    included, is one segment. *)
Fixpoint split (sep : N) (s : jsstring) : list jsstring :=
  match s with
  | [] => [[]]
  | c :: rest =>
      if N.eqb c sep then [] :: split sep rest
      else match split sep rest with
           | [] => [[c]]
           | seg :: segs => (c :: seg) :: segs
           end
  end.

(** WhiteSpace and LineTerminator code units of ECMAScript, the ones
    [trim] strips: TAB, LF, VT, FF, CR, SP, NBSP, U+1680, U+2000..U+200A,
    U+2028, U+2029, U+202F, U+205F, U+3000 and U+FEFF. *)
Definition is_whitespace (c : N) : bool :=
  ((9 <=? c) && (c <=? 13) || (c =? 32) || (c =? 160) || (c =? 5760)
   || (8192 <=? c) && (c <=? 8202) || (c =? 8232) || (c =? 8233)
   || (c =? 8239) || (c =? 8287) || (c =? 12288) || (c =? 65279))%N.

Fixpoint trim_start (s : jsstring) : jsstring :=
  match s with
  | [] => []
  | c :: rest => if is_whitespace c then trim_start rest else s
  end.

Definition trim_end (s : jsstring) : jsstring := rev (trim_start (rev s)).

Definition trim (s : jsstring) : jsstring := trim_end (trim_start s).

(** ** The world outside the node *)

(** What reaches [awsApiRequest]: service, HTTP method, path, the body as
    it is at the moment of the call, and the headers. *)
Record Request : Type := {
  service : string;
  method : string;
  path : string;
  body : JsValue;
  headers : list (string * string)
}.

(** How an awaited call settles. *)
Inductive Reply : Type :=
| Resolves (responseData : JsValue)
| Rejects (error : JsValue).

Record World : Type := {
  pending : list Reply;   (* the replies still to come, in call order *)
  sent : list Request     (* the requests issued so far, oldest first *)
}.

(** What can be thrown: a TypeError raised by the node's own code, or
    whatever [awsApiRequest] rejected with. *)
Inductive exn : Type :=
| TypeError
| Rejected (error : JsValue).

(** How a run over a finite list of replies ends: it returns, it throws, or
    it is still awaiting a reply that the list does not hold. *)
Inductive Outcome (A : Type) : Type :=
| Returned (a : A)
| Threw (e : exn)
| Awaiting.
Arguments Returned {A} a.
Arguments Threw {A} e.
Arguments Awaiting {A}.

Definition M (A : Type) : Type := World -> Outcome A * World.

Definition ret {A : Type} (a : A) : M A := fun w => (Returned a, w).

Definition bind {A B : Type} (m : M A) (k : A -> M B) : M B :=
  fun w =>
    match m w with
    | (Returned a, w') => k a w'
    | (Threw e, w') => (Threw e, w')
    | (Awaiting, w') => (Awaiting, w')
    end.

(** An operation of the node's own code that raises a TypeError when it
    has no result. *)
Definition must {A : Type} (o : option A) : M A :=
  fun w =>
    match o with
    | Some a => (Returned a, w)
    | None => (Threw TypeError, w)
    end.

Declare Scope aws_scope.
Delimit Scope aws_scope with aws.
Notation "x <- m ;; k" := (bind m (fun x => k))
  (at level 100, m at next level, right associativity) : aws_scope.
Open Scope aws_scope.

(** Modelled from the spec: [awsApiRequest] of [./GenericFunctions], the
    shared HTTP request helper, is an external collaborator
    (authentication, signing and retries live there).  The node only
    awaits it: the call records the request and settles as the next
    pending reply says, resolving with the response or rejecting with an
    error. *)
Definition awsApiRequest (service method path : string) (body : JsValue)
    (headers : list (string * string)) : M JsValue :=
  fun w =>
    let sent' := sent w ++ [Build_Request service method path body headers] in
    match pending w with
    | [] => (Awaiting, {| pending := []; sent := sent' |})
    | Resolves responseData :: rest =>
        (Returned responseData, {| pending := rest; sent := sent' |})
    | Rejects error :: rest =>
        (Threw (Rejected error), {| pending := rest; sent := sent' |})
    end.

(** ** [methods.loadOptions] *)

Record INodePropertyOptions : Type := {
  name : JsValue;
  value : JsValue
}.

(** [(arn) => ({ name: arn, value: arn })] *)
Definition option_of (arn : JsValue) : INodePropertyOptions :=
  {| name := arn; value := arn |}.

Definition target (operation : string) : list (string * string) :=
  [("Content-Type", "application/x-amz-json-1.1");
   ("X-Amz-Target", "AmazonEC2ContainerServiceV20141113." ++ operation)%string].

(** [getClusters]: one ListClusters call with the empty body; the result
    maps [responseData.clusterArns]. *)
Definition getClusters : M (list INodePropertyOptions) :=
  let headers := target "ListClusters" in
  responseData <- awsApiRequest "ecs" "POST" "/" (JObj []) headers ;;
  clusterArns <- must (get responseData (lit "clusterArns")) ;;
  must (array_map option_of clusterArns).

(** The parameters [getServices] reads through [this.getNodeParameter]. *)
Record ILoadOptionsFunctions : Type := {
  load_clusterName : jsstring   (* getNodeParameter('clusterName', 0) as string *)
}.

(** The [while (true)] loop of [getServices].  Each turn stores the token
    in the one [body] object, awaits one more call and appends its
    [serviceArns]; it leaves when the page has no truthy [nextToken].  Every
    turn consumes one reply, so the loop is a recursion on the replies to
    come; [getServices_loop_turn] below restates a turn with the awaited
    call written as [awsApiRequest]. *)
Fixpoint getServices_loop (replies : list Reply) (sent : list Request)
    (headers : list (string * string)) (body : list (jsstring * JsValue))
    (nextToken : JsValue) (returnData : list INodePropertyOptions)
  : Outcome (list INodePropertyOptions) * World :=
  let body := set body (lit "nextToken") nextToken in
  let sent := sent ++ [Build_Request "ecs" "POST" "/" (JObj body) headers] in
  match replies with
  | [] => (Awaiting, {| pending := []; sent := sent |})
  | Rejects error :: replies =>
      (Threw (Rejected error), {| pending := replies; sent := sent |})
  | Resolves additionalData :: replies =>
      let w := {| pending := replies; sent := sent |} in
      match get additionalData (lit "serviceArns") with
      | None => (Threw TypeError, w)
      | Some serviceArns =>
          match array_map option_of serviceArns with
          | None => (Threw TypeError, w)
          | Some more =>
              let returnData := returnData ++ more in
              match get additionalData (lit "nextToken") with
              | None => (Threw TypeError, w)
              | Some nextToken =>
                  if negb (truthy nextToken) then (Returned returnData, w)
                  else getServices_loop replies sent headers body nextToken returnData
              end
          end
      end
  end.

Definition getServices (this : ILoadOptionsFunctions) : M (list INodePropertyOptions) :=
  let returnData : list INodePropertyOptions := [] in
  let clusterName := load_clusterName this in
  if negb (truthy (JStr clusterName)) then ret []
  else
    let headers := target "ListServices" in
    let body := [(lit "cluster", JStr clusterName); (lit "maxResults", JNum 50)] in
    responseData <- awsApiRequest "ecs" "POST" "/" (JObj body) headers ;;
    serviceArns <- must (get responseData (lit "serviceArns")) ;;
    if negb (truthy serviceArns) then ret []
    else
      first <- must (array_map option_of serviceArns) ;;
      let returnData := returnData ++ first in
      nextToken <- must (get responseData (lit "nextToken")) ;;
      if truthy nextToken
      then fun w => getServices_loop (pending w) (sent w) headers body nextToken returnData
      else ret returnData.

(** ** [execute] *)

(** The parameters [execute] reads through [this.getNodeParameter]. *)
Record IExecuteFunctions : Type := {
  operation : jsstring;      (* getNodeParameter('operation', 0) as string *)
  clusterName : JsValue;     (* getNodeParameter('clusterName', 0) *)
  serviceNames : jsstring;   (* getNodeParameter('serviceNames', 0) as string *)
  serviceName : JsValue;     (* getNodeParameter('serviceName', 0) *)
  desiredCount : float       (* getNodeParameter('desiredCount', 0) as number *)
}.

Record IPairedItemData : Type := { item : nat }.

Record INodeExecutionData : Type := {
  json : JsValue;
  pairedItem : IPairedItemData
}.

(** [if (responseData) returnData.push({ json: responseData, pairedItem: { item: 0 } })] *)
Definition push_response (returnData : list INodeExecutionData) (responseData : JsValue)
  : list INodeExecutionData :=
  if truthy responseData
  then returnData ++ [{| json := responseData; pairedItem := {| item := 0 |} |}]
  else returnData.

(** [serviceNamesRaw.split(',').map((s) => s.trim()).filter((s) => s)] *)
Definition parse_services (serviceNamesRaw : jsstring) : list jsstring :=
  filter (fun s => truthy (JStr s)) (map trim (split comma serviceNamesRaw)).

Definition execute (this : IExecuteFunctions) : M (list (list INodeExecutionData)) :=
  let returnData : list INodeExecutionData := [] in
  let operation := operation this in
  let cluster := clusterName this in
  if jsstring_eqb operation (lit "describeServices") then
    let serviceNamesRaw := serviceNames this in
    let services := parse_services serviceNamesRaw in
    let headers := target "DescribeServices" in
    let body := [(lit "cluster", cluster); (lit "services", JArr (map JStr services))] in
    responseData <- awsApiRequest "ecs" "POST" "/" (JObj body) headers ;;
    let returnData := push_response returnData responseData in
    ret [returnData]
  else if jsstring_eqb operation (lit "forceNewDeployment") then
    let service := serviceName this in
    let desiredCount := desiredCount this in
    let headers := target "UpdateService" in
    let body := [(lit "cluster", cluster); (lit "service", service);
                 (lit "forceNewDeployment", JBool true)] in
    let body :=
      if PrimFloat.ltb 0 desiredCount   (* desiredCount > 0 *)
      then set body (lit "desiredCount") (JNum desiredCount)
      else body in
    responseData <- awsApiRequest "ecs" "POST" "/" (JObj body) headers ;;
    let returnData := push_response returnData responseData in
    ret [returnData]
  else ret [returnData].

(** ** [description.properties] *)

(** The part of a property descriptor that bears on the parameters the
    node reads: its name, type, whether it is required, its default, the
    values of its options, the loader of its options, and the
    [displayOptions] lists on [operation] (show) and [clusterName]
    (hide).  Display names and help texts are left out. *)
Record INodeProperties : Type := {
  property_name : string;                      (* name *)
  property_type : string;                      (* type *)
  required : bool;
  default : JsValue;
  options : list jsstring;                     (* options[i].value *)
  loadOptionsMethod : option string;           (* typeOptions.loadOptionsMethod *)
  show_operation : option (list jsstring);     (* displayOptions.show.operation *)
  hide_clusterName : option (list jsstring)    (* displayOptions.hide.clusterName *)
}.

Definition properties : list INodeProperties :=
  [ {| property_name := "operation"; property_type := "options"; required := false;
       default := JStr (lit "forceNewDeployment");
       options := [lit "describeServices"; lit "forceNewDeployment"];
       loadOptionsMethod := None;
       show_operation := None; hide_clusterName := None |};
    {| property_name := "clusterName"; property_type := "options"; required := false;
       default := JStr [];
       options := [];
       loadOptionsMethod := Some "getClusters";
       show_operation := Some [lit "forceNewDeployment"; lit "describeServices"];
       hide_clusterName := None |};
    {| property_name := "serviceName"; property_type := "options"; required := true;
       default := JStr [];
       options := [];
       loadOptionsMethod := Some "getServices";
       show_operation := Some [lit "forceNewDeployment"];
       hide_clusterName := Some [[]] |};
    {| property_name := "serviceNames"; property_type := "string"; required := true;
       default := JStr [];
       options := [];
       loadOptionsMethod := None;
       show_operation := Some [lit "describeServices"];
       hide_clusterName := Some [[]] |};
    {| property_name := "desiredCount"; property_type := "number"; required := false;
       default := JNum (-1);
       options := [];
       loadOptionsMethod := None;
       show_operation := Some [lit "forceNewDeployment"];
       hide_clusterName := None |} ].

(** [this.getNodeParameter(name, 0)] of [execute], as a value. *)
Definition getNodeParameter (this : IExecuteFunctions) (name : string) : JsValue :=
  if String.eqb name "operation" then JStr (operation this)
  else if String.eqb name "clusterName" then clusterName this
  else if String.eqb name "serviceNames" then JStr (serviceNames this)
  else if String.eqb name "serviceName" then serviceName this
  else if String.eqb name "desiredCount" then JNum (desiredCount this)
  else JUndefined.

(** ** Specification-side notions *)

(** A ListServices response as the ECS API gives it: the ARNs of one page
    and, when more pages follow, the token that asks for the next one. *)
Record ListServicesResponse : Type := {
  serviceArns : list jsstring;
  nextToken : option jsstring
}.

Definition list_services_json (r : ListServicesResponse) : JsValue :=
  JObj ((lit "serviceArns", JArr (map JStr (serviceArns r)))
        :: match nextToken r with
           | Some t => [(lit "nextToken", JStr t)]
           | None => []
           end).

Definition list_services_reply (r : ListServicesResponse) : Reply :=
  Resolves (list_services_json r).

(** A page that announces a further page: it carries a non-empty token. *)
Definition has_next (r : ListServicesResponse) : Prop :=
  exists t, nextToken r = Some t /\ t <> [].

(** The body of a ListServices request for a cluster, with or without a
    token, and the request itself. *)
Definition list_services_body (clusterName : jsstring) (token : option jsstring)
  : list (jsstring * JsValue) :=
  [(lit "cluster", JStr clusterName); (lit "maxResults", JNum 50)]
  ++ match token with
     | Some t => [(lit "nextToken", JStr t)]
     | None => []
     end.

Definition list_services_request (clusterName : jsstring) (token : option jsstring) : Request :=
  {| service := "ecs";
     method := "POST";
     path := "/";
     body := JObj (list_services_body clusterName token);
     headers := [("Content-Type", "application/x-amz-json-1.1");
                 ("X-Amz-Target", "AmazonEC2ContainerServiceV20141113.ListServices")] |}.

(** The dropdown entries for a list of ARNs. *)
Definition options_of (arns : list jsstring) : list INodePropertyOptions :=
  map (fun arn => {| name := JStr arn; value := JStr arn |}) arns.

(** The segments written one after the other with a separator between
    them. *)
Fixpoint join (sep : N) (segments : list jsstring) : jsstring :=
  match segments with
  | [] => []
  | s :: rest =>
      match rest with
      | [] => s
      | _ :: _ => s ++ sep :: join sep rest
      end
  end.

(** A string that neither starts nor ends with whitespace. *)
Definition no_outer_whitespace (t : jsstring) : Prop :=
  (forall c t', t = c :: t' -> is_whitespace c = false)
  /\ (forall c t', t = t' ++ [c] -> is_whitespace c = false).

(** [t] is [s] without the whitespace around it. *)
Definition trimmed_of (s t : jsstring) : Prop :=
  exists l r,
    s = l ++ t ++ r
    /\ Forall (fun c => is_whitespace c = true) l
    /\ Forall (fun c => is_whitespace c = true) r
    /\ no_outer_whitespace t.

Definition nonempty (s : jsstring) : bool :=
  match s with
  | [] => false
  | _ :: _ => true
  end.

(** What the claim says of the [services] array: the comma-separated
    segments of the parameter, each trimmed, the empty ones dropped. *)
Definition services_of (serviceNamesRaw : jsstring) (services : list jsstring) : Prop :=
  exists segments trimmed,
    join comma segments = serviceNamesRaw
    /\ Forall (fun seg => ~ In comma seg) segments
    /\ Forall2 trimmed_of segments trimmed
    /\ services = filter nonempty trimmed.

(** A service name as one would type it: not empty, no comma inside, no
    whitespace around. *)
Definition plain_name (s : jsstring) : Prop :=
  s <> [] /\ ~ In comma s /\ no_outer_whitespace s.

(** The DescribeServices request for a cluster and a list of services. *)
Definition describe_services_request (cluster : JsValue) (services : list jsstring) : Request :=
  {| service := "ecs";
     method := "POST";
     path := "/";
     body := JObj [(lit "cluster", cluster); (lit "services", JArr (map JStr services))];
     headers := [("Content-Type", "application/x-amz-json-1.1");
                 ("X-Amz-Target", "AmazonEC2ContainerServiceV20141113.DescribeServices")] |}.

(** The UpdateService request that forces a new deployment, with or
    without a desired count. *)
Definition update_service_request (cluster service : JsValue) (count : option float) : Request :=
  {| service := "ecs";
     method := "POST";
     path := "/";
     body := JObj ([(lit "cluster", cluster); (lit "service", service);
                    (lit "forceNewDeployment", JBool true)]
                   ++ match count with
                      | Some n => [(lit "desiredCount", JNum n)]
                      | None => []
                      end);
     headers := [("Content-Type", "application/x-amz-json-1.1");
                 ("X-Amz-Target", "AmazonEC2ContainerServiceV20141113.UpdateService")] |}.

(** One awaited request whose response, when truthy, becomes the only
    output item. *)
Definition relay (r : Request) : M (list (list INodeExecutionData)) :=
  fun w =>
    match pending w with
    | [] => (Awaiting, {| pending := []; sent := sent w ++ [r] |})
    | Resolves responseData :: rest =>
        (Returned [if truthy responseData
                   then [{| json := responseData; pairedItem := {| item := 0 |} |}]
                   else []],
         {| pending := rest; sent := sent w ++ [r] |})
    | Rejects error :: rest =>
        (Threw (Rejected error), {| pending := rest; sent := sent w ++ [r] |})
    end.

(** The property names of a request body, in order. *)
Definition body_keys (r : Request) : option (list jsstring) :=
  match body r with
  | JObj properties => Some (map fst properties)
  | _ => None
  end.

(** A value that is an object with a [serviceArns] property. *)
Definition has_serviceArns (v : JsValue) : Prop :=
  exists properties, v = JObj properties /\ In (lit "serviceArns") (map fst properties).

(** A computation hands every rejection of [awsApiRequest] to its caller:
    if one of the replies it consumed was a rejection with [e], then it
    threw exactly [e], that reply was the last one it consumed and the only
    rejection, and it sent as many requests as it consumed replies (none
    after the rejection). *)
Definition propagates {A : Type} (m : M A) : Prop :=
  forall w out w' consumed e,
    m w = (out, w') ->
    pending w = consumed ++ pending w' ->
    In (Rejects e) consumed ->
    out = Threw (Rejected e)
    /\ (exists before,
           consumed = before ++ [Rejects e]
           /\ forall e', ~ In (Rejects e') before)
    /\ (exists new, sent w' = sent w ++ new /\ List.length new = List.length consumed).

Definition no_rejects (replies : list Reply) : Prop :=
  forall e, ~ In (Rejects e) replies.

(** The bookkeeping behind [propagates]: a run consumes a prefix of the
    pending replies and appends to the requests sent, one request per
    reply consumed and one more when it is left awaiting; it throws a
    rejection exactly when the last reply it consumed is that rejection,
    the only one among those it consumed. *)
Definition accounted {A : Type} (m : M A) : Prop :=
  forall w,
  exists consumed new,
    pending w = consumed ++ pending (snd (m w))
    /\ sent (snd (m w)) = sent w ++ new
    /\ List.length new
       = List.length consumed + match fst (m w) with Awaiting => 1 | _ => 0 end
    /\ ((exists before e,
            consumed = before ++ [Rejects e]
            /\ no_rejects before
            /\ fst (m w) = Threw (Rejected e))
        \/ (no_rejects consumed /\ forall e, fst (m w) <> Threw (Rejected e))).

(** A property is offered for an operation when its
    [displayOptions.show.operation] lists the operation, or when it has no
    such list. *)
Definition shown_for (op : jsstring) (p : INodeProperties) : bool :=
  match show_operation p with
  | None => true
  | Some ops => existsb (jsstring_eqb op) ops
  end.

(** The operations the [operation] property offers. *)
Definition offered_operations : list jsstring :=
  flat_map (fun p => if String.eqb (property_name p) "operation" then options p else [])
           properties.

(** The [serviceArns] array of a reply, empty when the reply has none. *)
Definition page_arns (r : Reply) : list JsValue :=
  match r with
  | Resolves (JObj properties) =>
      match lookup (lit "serviceArns") properties with
      | JArr elements => elements
      | _ => []
      end
  | _ => []
  end.

(** The ListServices request whose token is any value. *)
Definition list_services_call (clusterName : jsstring) (token : option JsValue) : Request :=
  {| service := "ecs";
     method := "POST";
     path := "/";
     body := JObj ([(lit "cluster", JStr clusterName); (lit "maxResults", JNum 50)]
                   ++ match token with
                      | Some t => [(lit "nextToken", t)]
                      | None => []
                      end);
     headers := [("Content-Type", "application/x-amz-json-1.1");
                 ("X-Amz-Target", "AmazonEC2ContainerServiceV20141113.ListServices")] |}.

(** The ListClusters request of [getClusters]. *)
Definition list_clusters_request : Request :=
  {| service := "ecs";
     method := "POST";
     path := "/";
     body := JObj [];
     headers := [("Content-Type", "application/x-amz-json-1.1");
                 ("X-Amz-Target", "AmazonEC2ContainerServiceV20141113.ListClusters")] |}.

(** A code unit that leaves no service name behind: a comma or
    whitespace. *)
Definition blank (c : N) : Prop := c = comma \/ is_whitespace c = true.

(** * Properties *)

(** ** Helper lemmas *)

Lemma jsstring_eqb_eq (a b : jsstring) : jsstring_eqb a b = true <-> a = b.
Proof.
  revert b; induction a as [|x a IH]; destruct b as [|y b]; simpl;
    try (split; congruence).
  rewrite andb_true_iff, N.eqb_eq, IH. split.
  - intros [-> ->]; reflexivity.
  - intros H; injection H; auto.
Qed.

Lemma jsstring_eqb_refl (a : jsstring) : jsstring_eqb a a = true.
Proof. apply jsstring_eqb_eq; reflexivity. Qed.

Lemma jsstring_eqb_neq (a b : jsstring) : a <> b -> jsstring_eqb a b = false.
Proof.
  intros H. destruct (jsstring_eqb a b) eqn:E; [|reflexivity].
  apply jsstring_eqb_eq in E. contradiction.
Qed.

Lemma options_of_app (xs ys : list jsstring) :
  options_of (xs ++ ys) = options_of xs ++ options_of ys.
Proof. apply map_app. Qed.

Lemma array_map_arns (arns : list jsstring) :
  array_map option_of (JArr (map JStr arns)) = Some (options_of arns).
Proof. unfold options_of; simpl. now rewrite map_map. Qed.

Lemma get_serviceArns (r : ListServicesResponse) :
  get (list_services_json r) (lit "serviceArns")
  = Some (JArr (map JStr (serviceArns r))).
Proof. reflexivity. Qed.

Lemma get_nextToken (r : ListServicesResponse) :
  get (list_services_json r) (lit "nextToken")
  = Some match nextToken r with Some t => JStr t | None => JUndefined end.
Proof. unfold list_services_json. destruct (nextToken r); reflexivity. Qed.

(** ** The pagination loop of [getServices] *)

(** The one [body] object of [getServices] has no token before the loop
    and holds the token of the turn before inside it; storing a token
    gives the body with that token either way. *)
Lemma set_nextToken (clusterName : jsstring) (token : option jsstring) (t : jsstring) :
  set (list_services_body clusterName token) (lit "nextToken") (JStr t)
  = list_services_body clusterName (Some t).
Proof. destruct token; reflexivity. Qed.

(** Reading one page inside [getServices]: the token stored in the body,
    the page's [serviceArns] mapped, its [nextToken] looked up. *)
Ltac read_page :=
  rewrite ?set_nextToken, get_serviceArns, array_map_arns, get_nextToken.

(** One turn of the loop is the body of the [while (true)] as the source
    writes it: store the token, await [awsApiRequest], push the mapped
    [serviceArns], take the page's [nextToken], leave or go round again. *)
Lemma getServices_loop_turn (w : World) headers body nextToken returnData :
  getServices_loop (pending w) (sent w) headers body nextToken returnData
  = (let body := set body (lit "nextToken") nextToken in
     additionalData <- awsApiRequest "ecs" "POST" "/" (JObj body) headers ;;
     serviceArns <- must (get additionalData (lit "serviceArns")) ;;
     more <- must (array_map option_of serviceArns) ;;
     let returnData := returnData ++ more in
     nextToken <- must (get additionalData (lit "nextToken")) ;;
     if negb (truthy nextToken) then ret returnData
     else fun w' => getServices_loop (pending w') (sent w') headers body
                      nextToken returnData) w.
Proof.
  destruct w as [[|[additionalData|error] rest] sent0];
    cbn [pending sent getServices_loop]; unfold bind, awsApiRequest, must, ret;
    cbn [pending sent]; try reflexivity.
  destruct (get additionalData (lit "serviceArns")) as [serviceArns|]; [|reflexivity].
  destruct (array_map option_of serviceArns) as [more|]; [|reflexivity].
  destruct (get additionalData (lit "nextToken")) as [token|]; [|reflexivity].
  destruct (negb (truthy token)); reflexivity.
Qed.

Section Pagination.
Variable clusterName : jsstring.

Lemma getServices_loop_returns (init : list ListServicesResponse) :
  forall last rest sent0 token tok acc,
    Forall has_next init ->
    nextToken last = None ->
    getServices_loop (map list_services_reply (init ++ last :: rest)) sent0
                     (target "ListServices") (list_services_body clusterName token)
                     (JStr tok) acc
    = (Returned (acc ++ options_of (List.concat (map serviceArns (init ++ [last])))),
       {| pending := map list_services_reply rest;
          sent := sent0 ++ map (list_services_request clusterName)
                               (Some tok :: map nextToken init) |}).
Proof.
  induction init as [|r init IH]; intros last rest sent0 token tok acc Hinit Hlast.
  - cbn [app map getServices_loop list_services_reply].
    read_page; rewrite Hlast.
    cbn. now rewrite app_nil_r.
  - inversion Hinit as [|? ? [t [Ht Hne]] Hinit']; subst.
    cbn [app map getServices_loop list_services_reply].
    read_page; rewrite Ht.
    destruct t as [|c t]; [congruence|]. cbn [truthy negb].
    rewrite IH; auto.
    cbn [List.concat map]. rewrite options_of_app, <- !app_assoc.
    reflexivity.
Qed.

(** As long as every page announces a further one, the loop keeps
    asking: on such replies it ends neither by returning nor by
    throwing. *)
Lemma getServices_loop_awaits (pages : list ListServicesResponse) :
  forall sent0 token tok acc,
    Forall has_next pages ->
    fst (getServices_loop (map list_services_reply pages) sent0
                          (target "ListServices")
                          (list_services_body clusterName token) (JStr tok) acc)
    = Awaiting.
Proof.
  induction pages as [|r pages IH]; intros sent0 token tok acc Hpages.
  - reflexivity.
  - inversion Hpages as [|? ? [t [Ht Hne]] Hpages']; subst.
    cbn [map getServices_loop list_services_reply].
    read_page; rewrite Ht.
    destruct t as [|c t]; [congruence|]. cbn [truthy negb].
    now apply IH.
Qed.
End Pagination.

(** C1. On ListServices responses, [getServices] with a non-empty
    [clusterName] asks for the first page without a token and for every
    further page with the token of the response before, one call per
    response; at the first response without [nextToken] it returns the
    entries for the [serviceArns] of all pages read, concatenated in request
    order, and leaves the later replies untouched.  While every response
    carries a token it does not return. *)
Theorem getServices_paginates (this : ILoadOptionsFunctions) :
  load_clusterName this <> [] ->
  (forall init last rest sent0,
      Forall has_next init ->
      nextToken last = None ->
      getServices this {| pending := map list_services_reply (init ++ last :: rest);
                          sent := sent0 |}
      = (Returned (options_of (List.concat (map serviceArns (init ++ [last])))),
         {| pending := map list_services_reply rest;
            sent := sent0 ++ map (list_services_request (load_clusterName this))
                                 (None :: map nextToken init) |}))
  /\ (forall pages sent0,
         Forall has_next pages ->
         fst (getServices this {| pending := map list_services_reply pages;
                                  sent := sent0 |})
         = Awaiting).
Proof.
  intros Hname. unfold getServices.
  destruct (load_clusterName this) as [|c name] eqn:Ename; [congruence|].
  cbn [truthy negb]. split.
  - intros init last rest sent0 Hinit Hlast.
    destruct init as [|r init].
    + unfold bind, awsApiRequest, must, ret; cbn [app map pending sent list_services_reply].
      read_page; rewrite Hlast.
      cbn. now rewrite app_nil_r.
    + inversion Hinit as [|? ? [t [Ht Hne]] Hinit']; subst.
      unfold bind, awsApiRequest, must, ret; cbn [app map pending sent list_services_reply].
      read_page; rewrite Ht.
      destruct t as [|u t]; [congruence|]. cbn [truthy negb].
      change [(lit "cluster", JStr (c :: name)); (lit "maxResults", JNum 50)]
        with (list_services_body (c :: name) None).
      cbn [pending sent].
      rewrite getServices_loop_returns by assumption.
      cbn [List.concat map app]. rewrite options_of_app, <- app_assoc.
      reflexivity.
  - intros pages sent0 Hpages.
    destruct pages as [|r pages]; [reflexivity|].
    inversion Hpages as [|? ? [t [Ht Hne]] Hpages']; subst.
    unfold bind, awsApiRequest, must, ret; cbn [app map pending sent list_services_reply].
    read_page; rewrite Ht.
    destruct t as [|u t]; [congruence|]. cbn [truthy negb].
    change [(lit "cluster", JStr (c :: name)); (lit "maxResults", JNum 50)]
      with (list_services_body (c :: name) None).
    cbn [pending sent].
    now apply getServices_loop_awaits.
Qed.

Lemma getServices_paginates_witness :
  getServices {| load_clusterName := lit "prod" |}
    {| pending := map list_services_reply
                    [ {| serviceArns := [lit "arn:a"; lit "arn:b"]; nextToken := Some (lit "t1") |};
                      {| serviceArns := [lit "arn:c"]; nextToken := None |};
                      {| serviceArns := [lit "arn:d"]; nextToken := None |} ];
       sent := [] |}
  = (Returned (options_of [lit "arn:a"; lit "arn:b"; lit "arn:c"]),
     {| pending := map list_services_reply [ {| serviceArns := [lit "arn:d"]; nextToken := None |} ];
        sent := [ list_services_request (lit "prod") None;
                  list_services_request (lit "prod") (Some (lit "t1")) ] |}).
Proof.
  refine (proj1 (getServices_paginates {| load_clusterName := lit "prod" |} _)
            [ {| serviceArns := [lit "arn:a"; lit "arn:b"]; nextToken := Some (lit "t1") |} ]
            {| serviceArns := [lit "arn:c"]; nextToken := None |}
            [ {| serviceArns := [lit "arn:d"]; nextToken := None |} ]
            [] _ _).
  - discriminate.
  - constructor; [|constructor]. exists (lit "t1"). split; [reflexivity|discriminate].
  - reflexivity.
Defined.

(** ** [split], [trim] and the service names *)

Section Split.
Variable sep : N.

Lemma split_not_nil (s : jsstring) : split sep s <> [].
Proof.
  destruct s as [|c s]; simpl; [discriminate|].
  destruct (N.eqb c sep); [discriminate|].
  destruct (split sep s); discriminate.
Qed.

Lemma join_split (s : jsstring) : join sep (split sep s) = s.
Proof.
  induction s as [|c s IH]; [reflexivity|].
  cbn [split]. destruct (N.eqb_spec c sep) as [->|Hc].
  - pose proof (split_not_nil s) as Hne.
    cbn [join]. destruct (split sep s) as [|seg segs]; [contradiction|].
    cbn [app]. now rewrite IH.
  - destruct (split sep s) as [|seg segs] eqn:E.
    + now destruct (split_not_nil s).
    + cbn [join] in *. destruct segs; cbn [app]; now rewrite IH.
Qed.

Lemma split_no_sep (s : jsstring) :
  Forall (fun seg => ~ In sep seg) (split sep s).
Proof.
  induction s as [|c s IH]; cbn [split].
  - constructor; [intros []|constructor].
  - destruct (N.eqb_spec c sep) as [->|Hc].
    + constructor; [intros []|assumption].
    + destruct (split sep s) as [|seg segs].
      * constructor; [|constructor]. intros [H|[]]. congruence.
      * inversion IH; subst. constructor; [|assumption].
        intros [H|H]; [congruence|contradiction].
Qed.

Lemma split_plain (a : jsstring) : ~ In sep a -> split sep a = [a].
Proof.
  induction a as [|c a IH]; intros Ha; [reflexivity|].
  cbn [split]. destruct (N.eqb_spec c sep) as [->|Hc].
  - destruct Ha; now left.
  - rewrite IH; [reflexivity|]. intros H; apply Ha; now right.
Qed.

Lemma split_app_sep (a b : jsstring) :
  ~ In sep a -> split sep (a ++ sep :: b) = a :: split sep b.
Proof.
  induction a as [|c a IH]; intros Ha.
  - cbn [app split]. now rewrite N.eqb_refl.
  - cbn [app split]. destruct (N.eqb_spec c sep) as [->|Hc].
    + destruct Ha; now left.
    + rewrite IH; [reflexivity|]. intros H; apply Ha; now right.
Qed.

Lemma split_join (names : list jsstring) :
  names <> [] ->
  Forall (fun s => ~ In sep s) names ->
  split sep (join sep names) = names.
Proof.
  induction names as [|a names IH]; intros Hne Hall; [congruence|].
  inversion Hall as [|? ? Ha Hrest]; subst.
  destruct names as [|b names].
  - cbn [join]. now apply split_plain.
  - change (join sep (a :: b :: names)) with (a ++ sep :: join sep (b :: names)).
    rewrite split_app_sep by assumption.
    rewrite IH; [reflexivity|discriminate|assumption].
Qed.
End Split.

Lemma trim_start_spec (s : jsstring) :
  exists l,
    s = l ++ trim_start s
    /\ Forall (fun c => is_whitespace c = true) l
    /\ (forall c t', trim_start s = c :: t' -> is_whitespace c = false).
Proof.
  induction s as [|c s (l & Hs & Hl & Hhd)].
  - exists []. repeat split; [constructor | discriminate].
  - cbn [trim_start]. destruct (is_whitespace c) eqn:Ec.
    + exists (c :: l). repeat split.
      * cbn [app]. now rewrite <- Hs.
      * now constructor.
      * assumption.
    + exists []. repeat split; [constructor|].
      intros c' t' H; injection H as -> _. assumption.
Qed.

Lemma trim_spec (s : jsstring) : trimmed_of s (trim s).
Proof.
  unfold trim, trim_end.
  destruct (trim_start_spec s) as (l & Hs & Hl & Hhd).
  destruct (trim_start_spec (rev (trim_start s))) as (r & Hr & Hrw & Hlast).
  remember (trim_start s) as t1 eqn:Et1.
  remember (trim_start (rev t1)) as u eqn:Eu.
  assert (Ht1 : t1 = rev u ++ rev r).
  { rewrite <- rev_app_distr, <- Hr. now rewrite rev_involutive. }
  exists l, (rev r). repeat split.
  - now rewrite <- Ht1.
  - assumption.
  - apply Forall_forall. intros c Hc. apply in_rev in Hc.
    now apply (proj1 (Forall_forall _ _) Hrw).
  - intros c t' E. rewrite E in Ht1. apply (Hhd c (t' ++ rev r)). exact Ht1.
  - intros c t' E. apply (Hlast c (rev t')).
    rewrite <- (rev_involutive u), E, rev_app_distr. reflexivity.
Qed.

Lemma trim_start_plain (t : jsstring) :
  (forall c t', t = c :: t' -> is_whitespace c = false) -> trim_start t = t.
Proof.
  destruct t as [|c t]; [reflexivity|]. intros H.
  cbn [trim_start]. now rewrite (H c t eq_refl).
Qed.

Lemma trim_plain (t : jsstring) : no_outer_whitespace t -> trim t = t.
Proof.
  intros [Hhd Hlast]. unfold trim, trim_end.
  rewrite (trim_start_plain t Hhd).
  rewrite trim_start_plain; [apply rev_involutive|].
  intros c t' E. apply (Hlast c (rev t')).
  rewrite <- (rev_involutive t), E. reflexivity.
Qed.

Lemma parse_services_spec (raw : jsstring) : services_of raw (parse_services raw).
Proof.
  exists (split comma raw), (map trim (split comma raw)). repeat split.
  - apply join_split.
  - apply split_no_sep.
  - induction (split comma raw); constructor; [apply trim_spec | assumption].
Qed.

Lemma parse_services_nonempty (raw : jsstring) :
  Forall (fun s => s <> []) (parse_services raw).
Proof.
  apply Forall_forall. intros s Hs. apply filter_In in Hs as [_ Hs].
  destruct s; [discriminate Hs | discriminate].
Qed.

Lemma parse_services_plain (names : list jsstring) :
  names <> [] ->
  Forall plain_name names ->
  parse_services (join comma names) = names.
Proof.
  intros Hne Hall. unfold parse_services.
  rewrite split_join; [|assumption|].
  - induction Hall as [|a names (Ha & _ & Hws) _ IH]; [congruence|].
    cbn [map filter]. rewrite (trim_plain a Hws).
    destruct a as [|c a]; [congruence|]. cbn [truthy].
    destruct names as [|b names]; [reflexivity|].
    f_equal. apply IH. discriminate.
  - eapply Forall_impl; [|exact Hall]. intros a (_ & Ha & _). exact Ha.
Qed.

(** ** [execute] *)

Lemma execute_cases (this : IExecuteFunctions) (w : World) :
  execute this w
  = if jsstring_eqb (operation this) (lit "describeServices")
    then relay (describe_services_request (clusterName this)
                  (parse_services (serviceNames this))) w
    else if jsstring_eqb (operation this) (lit "forceNewDeployment")
    then relay (update_service_request (clusterName this) (serviceName this)
                  (if PrimFloat.ltb 0 (desiredCount this)
                   then Some (desiredCount this) else None)) w
    else (Returned [[]], w).
Proof.
  unfold execute, relay, bind, awsApiRequest, ret, push_response.
  destruct (jsstring_eqb (operation this) (lit "describeServices")).
  - destruct (pending w) as [|[v|e] rest]; reflexivity.
  - destruct (jsstring_eqb (operation this) (lit "forceNewDeployment")); [|reflexivity].
    destruct (PrimFloat.ltb 0 (desiredCount this));
      destruct (pending w) as [|[v|e] rest]; reflexivity.
Qed.

Lemma relay_sent (r : Request) (w : World) : sent (snd (relay r w)) = sent w ++ [r].
Proof. unfold relay. destruct (pending w) as [|[v|e] rest]; reflexivity. Qed.

Lemma execute_describeServices (this : IExecuteFunctions) (w : World) :
  operation this = lit "describeServices" ->
  execute this w
  = relay (describe_services_request (clusterName this)
             (parse_services (serviceNames this))) w.
Proof. intros H. rewrite execute_cases, H. reflexivity. Qed.

Lemma execute_forceNewDeployment (this : IExecuteFunctions) (w : World) :
  operation this = lit "forceNewDeployment" ->
  execute this w
  = relay (update_service_request (clusterName this) (serviceName this)
             (if PrimFloat.ltb 0 (desiredCount this)
              then Some (desiredCount this) else None)) w.
Proof. intros H. rewrite execute_cases, H. reflexivity. Qed.

Lemma execute_other (this : IExecuteFunctions) (w : World) :
  operation this <> lit "describeServices" ->
  operation this <> lit "forceNewDeployment" ->
  execute this w = (Returned [[]], w).
Proof.
  intros H1 H2. rewrite execute_cases.
  now rewrite (jsstring_eqb_neq _ _ H1), (jsstring_eqb_neq _ _ H2).
Qed.

(** C3. [execute] dispatches on two operation names: 'describeServices'
    sends one DescribeServices request, 'forceNewDeployment' sends one
    UpdateService request, and any other operation sends nothing and
    returns one empty output list. *)
Theorem execute_dispatch (this : IExecuteFunctions) (w : World) :
  (operation this = lit "describeServices" ->
   sent (snd (execute this w))
   = sent w ++ [describe_services_request (clusterName this)
                  (parse_services (serviceNames this))])
  /\ (operation this = lit "forceNewDeployment" ->
      exists count,
        sent (snd (execute this w))
        = sent w ++ [update_service_request (clusterName this) (serviceName this) count])
  /\ (operation this <> lit "describeServices" ->
      operation this <> lit "forceNewDeployment" ->
      execute this w = (Returned [[]], w)).
Proof.
  split; [|split].
  - intros H. now rewrite (execute_describeServices _ _ H), relay_sent.
  - intros H. rewrite (execute_forceNewDeployment _ _ H), relay_sent.
    eexists. reflexivity.
  - apply execute_other.
Qed.

(** C4. Whatever the parameters and replies, [execute] sends at most one
    request, and its body has one of three shapes: cluster and services;
    cluster, service and forceNewDeployment; or these three and
    desiredCount.  Each of the three shapes is sent for some parameters. *)
Theorem execute_request_shapes :
  (forall this w,
      exists new,
        sent (snd (execute this w)) = sent w ++ new
        /\ List.length new <= 1
        /\ forall r, In r new ->
             body_keys r = Some [lit "cluster"; lit "services"]
             \/ body_keys r = Some [lit "cluster"; lit "service"; lit "forceNewDeployment"]
             \/ body_keys r = Some [lit "cluster"; lit "service"; lit "forceNewDeployment";
                                    lit "desiredCount"])
  /\ (forall keys,
         In keys [ [lit "cluster"; lit "services"];
                   [lit "cluster"; lit "service"; lit "forceNewDeployment"];
                   [lit "cluster"; lit "service"; lit "forceNewDeployment";
                    lit "desiredCount"] ] ->
         exists this r,
           sent (snd (execute this {| pending := []; sent := [] |})) = [r]
           /\ body_keys r = Some keys).
Proof.
  split.
  - intros this w. rewrite execute_cases.
    destruct (jsstring_eqb (operation this) (lit "describeServices")).
    + rewrite relay_sent. eexists; split; [reflexivity|]. split; [simpl; lia|].
      intros r [<-|[]]. left; reflexivity.
    + destruct (jsstring_eqb (operation this) (lit "forceNewDeployment")).
      * rewrite relay_sent. eexists; split; [reflexivity|]. split; [simpl; lia|].
        intros r [<-|[]]. right.
        destruct (PrimFloat.ltb 0 (desiredCount this)); [right|left]; reflexivity.
      * exists []. split; [now rewrite app_nil_r|]. split; [simpl; lia|].
        intros r [].
  - intros keys [<-|[<-|[<-|[]]]].
    + exists {| operation := lit "describeServices"; clusterName := JStr (lit "c");
                serviceNames := lit "a"; serviceName := JUndefined; desiredCount := 0 |}.
      eexists; split; reflexivity.
    + exists {| operation := lit "forceNewDeployment"; clusterName := JStr (lit "c");
                serviceNames := []; serviceName := JStr (lit "s"); desiredCount := (-1) |}.
      eexists; split; reflexivity.
    + exists {| operation := lit "forceNewDeployment"; clusterName := JStr (lit "c");
                serviceNames := []; serviceName := JStr (lit "s"); desiredCount := 2 |}.
      eexists; split; reflexivity.
Qed.

(** C6. For both operations, when the awaited call resolves with a truthy
    response, [execute] returns one output list with one item, whose
    [json] is that response and whose [pairedItem] is [{ item: 0 }]. *)
Theorem execute_relays_response (this : IExecuteFunctions) (w : World)
    (responseData : JsValue) (rest : list Reply) :
  operation this = lit "describeServices" \/ operation this = lit "forceNewDeployment" ->
  pending w = Resolves responseData :: rest ->
  truthy responseData = true ->
  fst (execute this w)
  = Returned [[{| json := responseData; pairedItem := {| item := 0 |} |}]].
Proof.
  intros Hop Hw Htruthy.
  destruct Hop as [H|H];
    [rewrite (execute_describeServices _ _ H) | rewrite (execute_forceNewDeployment _ _ H)];
    unfold relay; rewrite Hw, Htruthy; reflexivity.
Qed.

Lemma execute_relays_response_witness :
  fst (execute {| operation := lit "describeServices"; clusterName := JStr (lit "prod");
                  serviceNames := lit "web"; serviceName := JUndefined;
                  desiredCount := (-1) |}
         {| pending := [Resolves (JObj [(lit "services", JArr []); (lit "failures", JArr [])])];
            sent := [] |})
  = Returned [[{| json := JObj [(lit "services", JArr []); (lit "failures", JArr [])];
                  pairedItem := {| item := 0 |} |}]].
Proof.
  apply (execute_relays_response _ _ _ []).
  - left; reflexivity.
  - reflexivity.
  - reflexivity.
Defined.

(** C8. For 'describeServices' the request body holds the cluster and a
    [services] array that is the list of comma-separated segments of the
    [serviceNames] parameter, each without the whitespace around it, the
    empty ones dropped, in their order; no element is empty; and the list
    is not cut at ten entries: any number of plain names joined by commas
    is sent as it is. *)
Theorem describeServices_names (this : IExecuteFunctions) (w : World) :
  operation this = lit "describeServices" ->
  exists services,
    sent (snd (execute this w))
    = sent w ++ [describe_services_request (clusterName this) services]
    /\ services_of (serviceNames this) services
    /\ Forall (fun s => s <> []) services
    /\ (forall names,
           names <> [] ->
           Forall plain_name names ->
           serviceNames this = join comma names ->
           services = names).
Proof.
  intros Hop. exists (parse_services (serviceNames this)).
  rewrite (execute_describeServices _ _ Hop), relay_sent.
  split; [reflexivity|]. split; [apply parse_services_spec|].
  split; [apply parse_services_nonempty|].
  intros names Hne Hplain ->. now apply parse_services_plain.
Qed.

Example parse_services_example :
  parse_services (lit " web , ,api,") = [lit "web"; lit "api"].
Proof. reflexivity. Qed.

Example parse_services_eleven :
  List.length (parse_services (lit "s1,s2,s3,s4,s5,s6,s7,s8,s9,s10,s11")) = 11.
Proof. reflexivity. Qed.

Lemma describeServices_names_witness :
  let this := {| operation := lit "describeServices";
                 clusterName := JStr (lit "prod");
                 serviceNames := lit " web , ,api,";
                 serviceName := JUndefined;
                 desiredCount := (-1) |} in
  let w := {| pending := []; sent := [] |} in
  operation this = lit "describeServices"
  /\ exists services,
       sent (snd (execute this w))
       = sent w ++ [describe_services_request (clusterName this) services]
       /\ services_of (serviceNames this) services
       /\ Forall (fun s => s <> []) services
       /\ (forall names,
              names <> [] ->
              Forall plain_name names ->
              serviceNames this = join comma names ->
              services = names).
Proof.
  intros this w. split; [reflexivity|].
  apply (describeServices_names this w). reflexivity.
Defined.

(** C9. For 'forceNewDeployment' the UpdateService body always has
    [forceNewDeployment] set to [true], and it has a [desiredCount]
    property, holding the parameter, exactly when the parameter is greater
    than 0. *)
Theorem forceNewDeployment_body (this : IExecuteFunctions) (w : World) :
  operation this = lit "forceNewDeployment" ->
  exists properties,
    sent (snd (execute this w))
    = sent w ++ [{| service := "ecs"; method := "POST"; path := "/";
                    body := JObj properties;
                    headers := [("Content-Type", "application/x-amz-json-1.1");
                                ("X-Amz-Target",
                                 "AmazonEC2ContainerServiceV20141113.UpdateService")] |}]
    /\ lookup (lit "forceNewDeployment") properties = JBool true
    /\ (In (lit "desiredCount") (map fst properties)
        <-> PrimFloat.ltb 0 (desiredCount this) = true)
    /\ (PrimFloat.ltb 0 (desiredCount this) = true ->
        lookup (lit "desiredCount") properties = JNum (desiredCount this)).
Proof.
  intros Hop. rewrite (execute_forceNewDeployment _ _ Hop), relay_sent.
  destruct (PrimFloat.ltb 0 (desiredCount this)) eqn:Hpos.
  - eexists. split; [reflexivity|]. split; [reflexivity|]. split.
    + split; [reflexivity|]. intros _. cbn. tauto.
    + reflexivity.
  - eexists. split; [reflexivity|]. split; [reflexivity|]. split.
    + split; [|discriminate]. cbn. unfold lit; cbn.
      intros [H|[H|[H|[]]]]; discriminate H.
    + discriminate.
Qed.

Lemma forceNewDeployment_body_witness :
  let this := {| operation := lit "forceNewDeployment";
                 clusterName := JStr (lit "prod");
                 serviceNames := [];
                 serviceName := JStr (lit "web");
                 desiredCount := 0 |} in
  let w := {| pending := []; sent := [] |} in
  PrimFloat.ltb 0 (desiredCount this) = false
  /\ exists properties,
       sent (snd (execute this w))
       = sent w ++ [{| service := "ecs"; method := "POST"; path := "/";
                       body := JObj properties;
                       headers := [("Content-Type", "application/x-amz-json-1.1");
                                   ("X-Amz-Target",
                                    "AmazonEC2ContainerServiceV20141113.UpdateService")] |}]
       /\ lookup (lit "forceNewDeployment") properties = JBool true
       /\ (In (lit "desiredCount") (map fst properties)
           <-> PrimFloat.ltb 0 (desiredCount this) = true)
       /\ (PrimFloat.ltb 0 (desiredCount this) = true ->
           lookup (lit "desiredCount") properties = JNum (desiredCount this)).
Proof.
  intros this w. split; [reflexivity|].
  apply (forceNewDeployment_body this w). reflexivity.
Defined.

Example forceNewDeployment_zero :
  sent (snd (execute {| operation := lit "forceNewDeployment";
                        clusterName := JStr (lit "prod");
                        serviceNames := [];
                        serviceName := JStr (lit "web");
                        desiredCount := 0 |}
               {| pending := []; sent := [] |}))
  = [update_service_request (JStr (lit "prod")) (JStr (lit "web")) None].
Proof. reflexivity. Qed.

Example forceNewDeployment_two :
  sent (snd (execute {| operation := lit "forceNewDeployment";
                        clusterName := JStr (lit "prod");
                        serviceNames := [];
                        serviceName := JStr (lit "web");
                        desiredCount := 2 |}
               {| pending := []; sent := [] |}))
  = [update_service_request (JStr (lit "prod")) (JStr (lit "web")) (Some 2%float)].
Proof. reflexivity. Qed.

(** ** Rejections of [awsApiRequest] *)

Lemma no_rejects_nil : no_rejects [].
Proof. intros e []. Qed.

Lemma no_rejects_app (a b : list Reply) :
  no_rejects a -> no_rejects b -> no_rejects (a ++ b).
Proof. intros Ha Hb e H. apply in_app_or in H as [H|H]; [eapply Ha|eapply Hb]; eauto. Qed.

Lemma no_rejects_resolves (v : JsValue) (l : list Reply) :
  no_rejects l -> no_rejects (Resolves v :: l).
Proof. intros Hl e [H|H]; [discriminate|eapply Hl; eauto]. Qed.

Create HintDb rejects.
#[local] Hint Resolve no_rejects_nil no_rejects_app no_rejects_resolves : rejects.

Lemma accounted_ret {A : Type} (a : A) : accounted (ret a).
Proof.
  intros w. exists [], []. cbn. rewrite app_nil_r.
  repeat split. right. split; [apply no_rejects_nil|discriminate].
Qed.

Lemma accounted_must {A : Type} (o : option A) : accounted (must o).
Proof.
  intros w. exists [], []. destruct o; cbn; rewrite app_nil_r;
    (repeat split; right; split; [apply no_rejects_nil|discriminate]).
Qed.

Lemma accounted_awsApiRequest service method path body headers :
  accounted (awsApiRequest service method path body headers).
Proof.
  intros w. unfold awsApiRequest.
  destruct (pending w) as [|[v|e] rest]; cbn [fst snd pending sent].
  - exists [], [Build_Request service method path body headers].
    repeat split. right. split; [apply no_rejects_nil|discriminate].
  - exists [Resolves v], [Build_Request service method path body headers].
    repeat split. right. split; [|discriminate].
    auto with rejects.
  - exists [Rejects e], [Build_Request service method path body headers].
    repeat split. left. exists [], e.
    repeat split. apply no_rejects_nil.
Qed.

Lemma accounted_bind {A B : Type} (m : M A) (k : A -> M B) :
  accounted m -> (forall a, accounted (k a)) -> accounted (bind m k).
Proof.
  intros Hm Hk w. unfold bind.
  destruct (Hm w) as (c1 & n1 & Hp1 & Hs1 & Hl1 & H1).
  destruct (m w) as [[a|e|] w1] eqn:Em; cbn [fst snd] in *.
  - destruct (Hk a w1) as (c2 & n2 & Hp2 & Hs2 & Hl2 & H2).
    exists (c1 ++ c2), (n1 ++ n2).
    split; [now rewrite <- app_assoc, <- Hp2|].
    split; [now rewrite Hs2, Hs1, app_assoc|].
    split; [rewrite !length_app; lia|].
    destruct H1 as [(b1 & e1 & _ & _ & Habs)|[Hc1 _]]; [discriminate|].
    destruct H2 as [(b2 & e2 & -> & Hb2 & Hout)|[Hc2 Hout]].
    + left. exists (c1 ++ b2), e2.
      split; [now rewrite app_assoc|]. split; [auto with rejects|assumption].
    + right. split; [auto with rejects|assumption].
  - exists c1, n1. repeat (split; [assumption|]).
    destruct H1 as [(b1 & e1 & -> & Hb1 & Hout)|[Hc1 Hout]].
    + left. exists b1, e1. injection Hout as ->. auto.
    + right. split; [assumption|]. intros e0 H. injection H as ->.
      now apply (Hout e0).
  - exists c1, n1. repeat (split; [assumption|]).
    destruct H1 as [(b1 & e1 & _ & _ & Hout)|[Hc1 _]]; [discriminate|].
    right. split; [assumption|discriminate].
Qed.



Lemma accounted_getServices_loop headers body nextToken returnData :
  accounted (fun w => getServices_loop (pending w) (sent w) headers body
                        nextToken returnData).
Proof.
  intros [replies sent0]. cbn [pending sent].
  revert sent0 body nextToken returnData.
  induction replies as [|[v|e] rest IH]; intros sent0 body nextToken returnData.
  - eexists [], [_]. cbn. repeat split.
    right. split; [apply no_rejects_nil|discriminate].
  - cbn [getServices_loop].
    assert (Hstop : forall out : Outcome (list INodePropertyOptions),
               (forall e, out <> Threw (Rejected e)) ->
               out <> Awaiting ->
               forall req,
               exists consumed new,
                 Resolves v :: rest = consumed ++ rest
                 /\ sent0 ++ [req] = sent0 ++ new
                 /\ List.length new
                    = List.length consumed + match out with Awaiting => 1 | _ => 0 end
                 /\ ((exists before e,
                         consumed = before ++ [Rejects e]
                         /\ no_rejects before /\ out = Threw (Rejected e))
                     \/ (no_rejects consumed /\ forall e, out <> Threw (Rejected e)))).
    { intros out Hout Hnot req. exists [Resolves v], [req].
      split; [reflexivity|]. split; [reflexivity|].
      split; [destruct out; [reflexivity|reflexivity|congruence]|].
      right. split; [|assumption]. auto with rejects. }
    destruct (get v (lit "serviceArns")) as [serviceArns|];
      [|apply Hstop; discriminate].
    destruct (array_map option_of serviceArns) as [more|];
      [|apply Hstop; discriminate].
    destruct (get v (lit "nextToken")) as [token|];
      [|apply Hstop; discriminate].
    destruct (negb (truthy token)); [apply Hstop; discriminate|].
    match goal with
    | |- context [getServices_loop rest ?s ?h ?b ?t ?a] =>
        destruct (IH s b t a) as (c & n & Hp & Hs & Hl & H)
    end.
    exists (Resolves v :: c), (Build_Request "ecs" "POST" "/"
                                 (JObj (set body (lit "nextToken") nextToken))
                                 headers :: n).
    split; [cbn [app]; now rewrite <- Hp|].
    split; [rewrite Hs, <- app_assoc; reflexivity|].
    split; [cbn [List.length]; lia|].
    destruct H as [(b & e & -> & Hb & Hout)|[Hc Hout]].
    + left. exists (Resolves v :: b), e.
      split; [reflexivity|]. split; [auto with rejects|assumption].
    + right. split; [auto with rejects|assumption].
  - eexists [Rejects e], [_]. cbn. repeat split.
    left. exists [], e. repeat split. apply no_rejects_nil.
Qed.

Lemma accounted_getClusters : accounted getClusters.
Proof.
  unfold getClusters.
  apply accounted_bind; [apply accounted_awsApiRequest|]. intros responseData.
  apply accounted_bind; [apply accounted_must|]. intros clusterArns.
  apply accounted_must.
Qed.

Lemma accounted_getServices (this : ILoadOptionsFunctions) : accounted (getServices this).
Proof.
  unfold getServices.
  destruct (negb (truthy (JStr (load_clusterName this)))); [apply accounted_ret|].
  apply accounted_bind; [apply accounted_awsApiRequest|]. intros responseData.
  apply accounted_bind; [apply accounted_must|]. intros serviceArns.
  destruct (negb (truthy serviceArns)); [apply accounted_ret|].
  apply accounted_bind; [apply accounted_must|]. intros first.
  apply accounted_bind; [apply accounted_must|]. intros nextToken.
  destruct (truthy nextToken); [apply accounted_getServices_loop|apply accounted_ret].
Qed.

Lemma accounted_execute (this : IExecuteFunctions) : accounted (execute this).
Proof.
  unfold execute.
  destruct (jsstring_eqb (operation this) (lit "describeServices")).
  - apply accounted_bind; [apply accounted_awsApiRequest|]. intros responseData.
    apply accounted_ret.
  - destruct (jsstring_eqb (operation this) (lit "forceNewDeployment")).
    + apply accounted_bind; [apply accounted_awsApiRequest|]. intros responseData.
      apply accounted_ret.
    + apply accounted_ret.
Qed.

Lemma accounted_propagates {A : Type} (m : M A) : accounted m -> propagates m.
Proof.
  intros Hm w out w' consumed e Hrun Hpending Hin.
  destruct (Hm w) as (c & n & Hp & Hs & Hl & H).
  rewrite Hrun in *. cbn [fst snd] in *.
  assert (c = consumed) as ->.
  { rewrite Hp in Hpending. now apply app_inv_tail in Hpending. }
  destruct H as [(b & e0 & -> & Hb & Hout)|[Hc _]].
  - apply in_app_or in Hin as [Hin|[Hin|[]]]; [now destruct (Hb e)|].
    injection Hin as <-. subst out.
    split; [reflexivity|]. split; [exists b; auto|].
    exists n. split; [assumption|]. cbn in Hl. lia.
  - now destruct (Hc e).
Qed.

(** C5. [execute], [getClusters] and [getServices] hand a rejection of
    [awsApiRequest] to their caller as it is: when a call they awaited is
    rejected with an error, they throw that very error, produce no result,
    and send nothing after the rejected call. *)
Theorem rejections_propagate :
  (forall this, propagates (execute this))
  /\ propagates getClusters
  /\ (forall this, propagates (getServices this)).
Proof.
  split; [|split].
  - intros this. apply accounted_propagates, accounted_execute.
  - apply accounted_propagates, accounted_getClusters.
  - intros this. apply accounted_propagates, accounted_getServices.
Qed.

Lemma rejections_propagate_witness :
  let this := {| load_clusterName := lit "prod" |} in
  let page := list_services_reply {| serviceArns := [lit "arn:a"];
                                     nextToken := Some (lit "t1") |} in
  let e := JStr (lit "Throttled") in
  let w := {| pending := [page; Rejects e; Resolves (JObj [])]; sent := [] |} in
  let w' := snd (getServices this w) in
  fst (getServices this w) = Threw (Rejected e)
  /\ (exists before,
         [page; Rejects e] = before ++ [Rejects e]
         /\ forall e', ~ In (Rejects e') before)
  /\ (exists new, sent w' = sent w ++ new /\ List.length new = 2).
Proof.
  intros this page e w w'.
  refine (proj2 (proj2 rejections_propagate) this w (fst (getServices this w)) w'
            [page; Rejects e] e _ _ _).
  - reflexivity.
  - reflexivity.
  - right; left; reflexivity.
Defined.

Example execute_rejected :
  execute {| operation := lit "describeServices"; clusterName := JStr (lit "prod");
             serviceNames := lit "web"; serviceName := JUndefined; desiredCount := (-1) |}
    {| pending := [Rejects (JStr (lit "AccessDenied")); Resolves (JObj [])]; sent := [] |}
  = (Threw (Rejected (JStr (lit "AccessDenied"))),
     {| pending := [Resolves (JObj [])];
        sent := [describe_services_request (JStr (lit "prod")) [lit "web"]] |}).
Proof. reflexivity. Qed.

Example getClusters_rejected :
  getClusters {| pending := [Rejects (JStr (lit "Throttled")); Resolves (JObj [])];
                 sent := [] |}
  = (Threw (Rejected (JStr (lit "Throttled"))),
     {| pending := [Resolves (JObj [])];
        sent := [{| service := "ecs"; method := "POST"; path := "/"; body := JObj [];
                    headers := target "ListClusters" |}] |}).
Proof. reflexivity. Qed.

Example getServices_rejected_on_second_page :
  getServices {| load_clusterName := lit "prod" |}
    {| pending := [ list_services_reply {| serviceArns := [lit "arn:a"];
                                           nextToken := Some (lit "t1") |};
                    Rejects (JStr (lit "Throttled"));
                    list_services_reply {| serviceArns := [lit "arn:b"];
                                           nextToken := None |} ];
       sent := [] |}
  = (Threw (Rejected (JStr (lit "Throttled"))),
     {| pending := [ list_services_reply {| serviceArns := [lit "arn:b"];
                                            nextToken := None |} ];
        sent := [ list_services_request (lit "prod") None;
                  list_services_request (lit "prod") (Some (lit "t1")) ] |}).
Proof. reflexivity. Qed.

(** ** The [serviceArns] guard of [getServices] *)

Lemma lookup_absent (k : jsstring) (properties : list (jsstring * JsValue)) :
  ~ In k (map fst properties) -> lookup k properties = JUndefined.
Proof.
  induction properties as [|[k' v] rest IH]; intros H; [reflexivity|].
  cbn [lookup]. rewrite jsstring_eqb_neq.
  - apply IH. intros Hin. apply H. now right.
  - intros ->. apply H. now left.
Qed.

Lemma array_has_serviceArns (v : JsValue) (elements : list JsValue) :
  get v (lit "serviceArns") = Some (JArr elements) -> has_serviceArns v.
Proof.
  destruct v as [| | | | | |properties]; try discriminate.
  cbn [get]. intros H. exists properties. split; [reflexivity|].
  destruct (in_dec (list_eq_dec N.eq_dec) (lit "serviceArns") (map fst properties))
    as [Hin|Hout]; [assumption|].
  rewrite (lookup_absent _ _ Hout) in H. discriminate.
Qed.

Lemma no_serviceArns_throws (v : JsValue) :
  ~ has_serviceArns v ->
  match get v (lit "serviceArns") with
  | Some serviceArns => array_map option_of serviceArns = None
  | None => True
  end.
Proof.
  intros Hv. destruct (get v (lit "serviceArns")) as [sa|] eqn:E; [|exact I].
  destruct sa; try reflexivity.
  destruct Hv. eapply array_has_serviceArns; eauto.
Qed.

Lemma getServices_loop_throws (clusterName : jsstring) (init : list ListServicesResponse) :
  forall v rest sent0 token tok acc,
    Forall has_next init ->
    ~ has_serviceArns v ->
    fst (getServices_loop (map list_services_reply init ++ Resolves v :: rest) sent0
           (target "ListServices") (list_services_body clusterName token) (JStr tok) acc)
    = Threw TypeError.
Proof.
  induction init as [|r init IH]; intros v rest sent0 token tok acc Hinit Hv.
  - cbn [app map getServices_loop].
    pose proof (no_serviceArns_throws v Hv) as H.
    destruct (get v (lit "serviceArns")) as [sa|]; [|reflexivity].
    now rewrite H.
  - inversion Hinit as [|? ? [t [Ht Hne]] Hinit']; subst.
    cbn [app map getServices_loop list_services_reply].
    read_page; rewrite Ht.
    destruct t as [|c t]; [congruence|]. cbn [truthy negb].
    now apply IH.
Qed.

Lemma getServices_loop_pages_have_serviceArns :
  forall replies sent0 headers body nextToken returnData out w',
    getServices_loop replies sent0 headers body nextToken returnData = (Returned out, w') ->
    exists consumed,
      replies = consumed ++ pending w'
      /\ Forall (fun r => exists v, r = Resolves v /\ has_serviceArns v) consumed.
Proof.
  induction replies as [|[v|e] rest IH];
    intros sent0 headers body nextToken returnData out w' Hrun;
    cbn [getServices_loop] in Hrun; try discriminate.
  destruct (get v (lit "serviceArns")) as [sa|] eqn:Esa; [|discriminate].
  destruct (array_map option_of sa) as [more|] eqn:Emore; [|discriminate].
  assert (Hv : has_serviceArns v).
  { destruct sa; try discriminate. eapply array_has_serviceArns; eauto. }
  destruct (get v (lit "nextToken")) as [token|]; [|discriminate].
  destruct (negb (truthy token)).
  - injection Hrun as _ <-. exists [Resolves v]. split; [reflexivity|].
    constructor; [eauto|constructor].
  - apply IH in Hrun as (c & -> & Hc).
    exists (Resolves v :: c). split; [reflexivity|]. constructor; eauto.
Qed.

(** C10. [getServices] returns the empty list, without any request, when
    [clusterName] is empty, and after its first request when the first
    response has no [serviceArns] property.  A later page is not guarded:
    one without a [serviceArns] property makes [getServices] throw a
    TypeError, so whenever [getServices] returns, every page it fetched
    after the first one had a [serviceArns] property. *)
Theorem getServices_serviceArns_guard :
  (forall this w,
      load_clusterName this = [] -> getServices this w = (Returned [], w))
  /\ (forall this properties rest sent0,
         load_clusterName this <> [] ->
         ~ In (lit "serviceArns") (map fst properties) ->
         getServices this {| pending := Resolves (JObj properties) :: rest; sent := sent0 |}
         = (Returned [],
            {| pending := rest;
               sent := sent0 ++ [list_services_request (load_clusterName this) None] |}))
  /\ (forall this first init v rest sent0,
         load_clusterName this <> [] ->
         Forall has_next (first :: init) ->
         ~ has_serviceArns v ->
         fst (getServices this
                {| pending := map list_services_reply (first :: init) ++ Resolves v :: rest;
                   sent := sent0 |})
         = Threw TypeError)
  /\ (forall this w out w' consumed,
         getServices this w = (Returned out, w') ->
         pending w = consumed ++ pending w' ->
         Forall (fun r => exists v, r = Resolves v /\ has_serviceArns v) (tl consumed)).
Proof.
  split; [|split; [|split]].
  - intros this w Hname. unfold getServices. now rewrite Hname.
  - intros this properties rest sent0 Hname Hno. unfold getServices.
    destruct (load_clusterName this) as [|c name]; [congruence|].
    unfold bind, awsApiRequest, must, ret. cbn [truthy negb pending sent get].
    now rewrite (lookup_absent _ _ Hno).
  - intros this first init v rest sent0 Hname Hinit Hv. unfold getServices.
    destruct (load_clusterName this) as [|c name]; [congruence|].
    inversion Hinit as [|? ? [t [Ht Hne]] Hinit']; subst.
    unfold bind, awsApiRequest, must, ret.
    cbn [truthy negb pending sent map app list_services_reply].
    read_page; rewrite Ht.
    destruct t as [|u t]; [congruence|]. cbn [truthy negb pending sent].
    change [(lit "cluster", JStr (c :: name)); (lit "maxResults", JNum 50)]
      with (list_services_body (c :: name) None).
    now apply getServices_loop_throws.
  - intros this w out w' consumed Hrun Hp. unfold getServices in Hrun.
    assert (Hnil : forall l : list Reply, l ++ pending w' = pending w' -> l = []).
    { intros l H. apply (app_inv_tail (pending w') l []). exact H. }
    destruct (negb (truthy (JStr (load_clusterName this)))).
    { injection Hrun as _ <-. symmetry in Hp. rewrite (Hnil _ Hp). constructor. }
    unfold bind, awsApiRequest, must, ret in Hrun.
    destruct (pending w) as [|[v|e] rest] eqn:Ew; try discriminate.
    destruct (get v (lit "serviceArns")) as [sa|]; [|discriminate].
    assert (Hone : pending w' = rest -> Forall
               (fun r => exists v, r = Resolves v /\ has_serviceArns v) (tl consumed)).
    { intros H. rewrite H in Hp.
      change (Resolves v :: rest) with ([Resolves v] ++ rest) in Hp.
      apply app_inv_tail in Hp as <-. constructor. }
    destruct (negb (truthy sa)).
    { injection Hrun as _ <-. now apply Hone. }
    destruct (array_map option_of sa) as [first|]; [|discriminate].
    destruct (get v (lit "nextToken")) as [token|]; [|discriminate].
    destruct (truthy token).
    + cbn [pending sent] in Hrun.
      apply getServices_loop_pages_have_serviceArns in Hrun as (c & Hrest & Hc).
      rewrite Hrest in Hp.
      change (Resolves v :: c ++ pending w') with ((Resolves v :: c) ++ pending w') in Hp.
      apply app_inv_tail in Hp as <-. exact Hc.
    + injection Hrun as _ <-. now apply Hone.
Qed.

Example getServices_unguarded_page :
  getServices {| load_clusterName := lit "prod" |}
    {| pending := [ list_services_reply {| serviceArns := [lit "arn:a"];
                                           nextToken := Some (lit "t1") |};
                    Resolves (JObj [(lit "nextToken", JStr (lit "t2"))]) ];
       sent := [] |}
  = (Threw TypeError,
     {| pending := [];
        sent := [ list_services_request (lit "prod") None;
                  list_services_request (lit "prod") (Some (lit "t1")) ] |}).
Proof. reflexivity. Qed.

(** ** [getClusters] reads one page *)

(** C2. [getClusters] awaits exactly one ListClusters call: on a response
    that carries [clusterArns] and a [nextToken] it returns the entries of
    that page alone, sends no further request and leaves every later
    reply pending. *)
Theorem getClusters_reads_one_page (arns : list JsValue) (token : jsstring)
    (rest : list Reply) (sent0 : list Request) :
  getClusters {| pending := Resolves (JObj [(lit "clusterArns", JArr arns);
                                            (lit "nextToken", JStr token)]) :: rest;
                 sent := sent0 |}
  = (Returned (map option_of arns),
     {| pending := rest;
        sent := sent0 ++ [{| service := "ecs"; method := "POST"; path := "/";
                             body := JObj [];
                             headers := [("Content-Type", "application/x-amz-json-1.1");
                                         ("X-Amz-Target",
                                          "AmazonEC2ContainerServiceV20141113.ListClusters")] |}] |}).
Proof. reflexivity. Qed.

Example getClusters_drops_second_page :
  getClusters
    {| pending := [ Resolves (JObj [(lit "clusterArns", JArr [JStr (lit "arn:c1")]);
                                    (lit "nextToken", JStr (lit "t1"))]);
                    Resolves (JObj [(lit "clusterArns", JArr [JStr (lit "arn:c2")])]) ];
       sent := [] |}
  = (Returned [option_of (JStr (lit "arn:c1"))],
     {| pending := [ Resolves (JObj [(lit "clusterArns", JArr [JStr (lit "arn:c2")])]) ];
        sent := [{| service := "ecs"; method := "POST"; path := "/"; body := JObj [];
                    headers := target "ListClusters" |}] |}).
Proof. reflexivity. Qed.

(** * Further properties of the loaders *)

(** X1. [getClusters] has no guard on the response: unless the response
    is an object whose [clusterArns] is an array (a missing property, a
    [null] response, a non-array value), it throws a TypeError, after its
    one ListClusters request. *)
Theorem getClusters_unguarded (v : JsValue) (rest : list Reply) (sent0 : list Request) :
  (forall arns, get v (lit "clusterArns") <> Some (JArr arns)) ->
  getClusters {| pending := Resolves v :: rest; sent := sent0 |}
  = (Threw TypeError, {| pending := rest; sent := sent0 ++ [list_clusters_request] |}).
Proof.
  intros Hv. unfold getClusters, bind, awsApiRequest, must. cbn [pending sent].
  destruct (get v (lit "clusterArns")) as [clusterArns|] eqn:E; [|reflexivity].
  destruct clusterArns; try reflexivity.
  now destruct (Hv elements).
Qed.

Lemma getClusters_unguarded_witness :
  getClusters {| pending := [Resolves (JObj [])]; sent := [] |}
  = (Threw TypeError, {| pending := []; sent := [] ++ [list_clusters_request] |}).
Proof. apply (getClusters_unguarded (JObj []) [] []). intros arns; discriminate. Defined.

Lemma serviceArns_array (v : JsValue) (elements : list JsValue) :
  get v (lit "serviceArns") = Some (JArr elements) ->
  page_arns (Resolves v) = elements.
Proof.
  destruct v; try discriminate. cbn [get page_arns]. intros H.
  injection H as ->. reflexivity.
Qed.

Lemma serviceArns_falsy (v sa : JsValue) :
  get v (lit "serviceArns") = Some sa -> truthy sa = false ->
  page_arns (Resolves v) = [].
Proof.
  destruct v; try reflexivity. cbn [get page_arns]. intros H Hf.
  injection H as ->. destruct sa; try reflexivity. discriminate.
Qed.

Lemma array_map_inv {B : Type} (f : JsValue -> B) (v : JsValue) (l : list B) :
  array_map f v = Some l -> exists elements, v = JArr elements /\ l = map f elements.
Proof.
  destruct v; try discriminate. cbn. intros H; injection H as <-. eauto.
Qed.

Lemma getServices_loop_returns_consumed :
  forall replies sent0 headers body nextToken returnData out w',
    getServices_loop replies sent0 headers body nextToken returnData = (Returned out, w') ->
    exists consumed,
      replies = consumed ++ pending w'
      /\ out = returnData ++ map option_of (List.concat (map page_arns consumed)).
Proof.
  induction replies as [|[v|e] rest IH];
    intros sent0 headers body nextToken returnData out w' Hrun;
    cbn [getServices_loop] in Hrun; try discriminate.
  destruct (get v (lit "serviceArns")) as [sa|] eqn:Esa; [|discriminate].
  destruct (array_map option_of sa) as [more|] eqn:Emore; [|discriminate].
  apply array_map_inv in Emore as (elements & -> & ->).
  apply serviceArns_array in Esa.
  destruct (get v (lit "nextToken")) as [token|]; [|discriminate].
  destruct (negb (truthy token)).
  - injection Hrun as <- <-. exists [Resolves v]. split; [reflexivity|].
    cbn [map List.concat]. now rewrite Esa, app_nil_r.
  - apply IH in Hrun as (c & -> & ->).
    exists (Resolves v :: c). split; [reflexivity|].
    cbn [map List.concat]. now rewrite Esa, map_app, app_assoc.
Qed.

(** X2. Whatever the replies are, when [getServices] returns, its result
    is exactly the elements of the [serviceArns] arrays of the replies it
    consumed, in order, each one as both [name] and [value] of its
    entry: nothing is dropped, added or reordered. *)
Theorem getServices_returns_consumed_arns (this : ILoadOptionsFunctions) (w w' : World)
    (out : list INodePropertyOptions) (consumed : list Reply) :
  getServices this w = (Returned out, w') ->
  pending w = consumed ++ pending w' ->
  out = map option_of (List.concat (map page_arns consumed)).
Proof.
  intros Hrun Hp. unfold getServices in Hrun.
  destruct (negb (truthy (JStr (load_clusterName this)))).
  { injection Hrun as <- <-.
    apply (app_inv_tail (pending w) [] consumed) in Hp as <-. reflexivity. }
  unfold bind, awsApiRequest, must, ret in Hrun.
  destruct (pending w) as [|[v|e] rest] eqn:Ew; try discriminate.
  destruct (get v (lit "serviceArns")) as [sa|] eqn:Esa; [|discriminate].
  assert (Hone : pending w' = rest -> consumed = [Resolves v]).
  { intros H. rewrite H in Hp.
    change (Resolves v :: rest) with ([Resolves v] ++ rest) in Hp.
    now apply app_inv_tail in Hp. }
  destruct (truthy sa) eqn:Hsa; cbn [negb] in Hrun.
  - destruct (array_map option_of sa) as [first|] eqn:Efirst; [|discriminate].
    apply array_map_inv in Efirst as (elements & -> & ->).
    apply serviceArns_array in Esa.
    destruct (get v (lit "nextToken")) as [token|]; [|discriminate].
    destruct (truthy token).
    + cbn [pending sent] in Hrun.
      apply getServices_loop_returns_consumed in Hrun as (c & Hrest & ->).
      rewrite Hrest in Hp.
      change (Resolves v :: c ++ pending w') with ((Resolves v :: c) ++ pending w') in Hp.
      apply app_inv_tail in Hp as <-.
      cbn [map List.concat app]. now rewrite Esa, map_app.
    + injection Hrun as <- <-. rewrite Hone by reflexivity.
      cbn [map List.concat app]. now rewrite Esa, app_nil_r.
  - injection Hrun as <- <-. rewrite Hone by reflexivity.
    cbn [map List.concat]. now rewrite (serviceArns_falsy _ _ Esa Hsa).
Qed.

Lemma getServices_returns_consumed_arns_witness :
  let this := {| load_clusterName := lit "prod" |} in
  let page1 := Resolves (JObj [(lit "serviceArns", JArr [JStr (lit "arn:a"); JNum 7]);
                               (lit "nextToken", JNum 1)]) in
  let page2 := Resolves (JObj [(lit "serviceArns", JArr [JNull])]) in
  let w := {| pending := [page1; page2; Rejects JNull]; sent := [] |} in
  fst (getServices this w)
  = Returned (map option_of (List.concat (map page_arns [page1; page2]))).
Proof.
  intros this page1 page2 w.
  refine (f_equal Returned
            (getServices_returns_consumed_arns this w (snd (getServices this w))
               [option_of (JStr (lit "arn:a")); option_of (JNum 7); option_of JNull]
               [page1; page2] _ _)).
  - reflexivity.
  - reflexivity.
Defined.

Lemma set_token (clusterName : jsstring) (token : option JsValue) (t : JsValue) :
  set (match token with
       | Some t' => [(lit "cluster", JStr clusterName); (lit "maxResults", JNum 50);
                     (lit "nextToken", t')]
       | None => [(lit "cluster", JStr clusterName); (lit "maxResults", JNum 50)]
       end) (lit "nextToken") t
  = [(lit "cluster", JStr clusterName); (lit "maxResults", JNum 50); (lit "nextToken", t)].
Proof. destruct token; reflexivity. Qed.

(** The requests of the loop: one per turn, each with the token the reply
    before it resolved with. *)
Lemma getServices_loop_requests (clusterName : jsstring) :
  forall replies sent0 token tok returnData,
  exists tokens,
    sent (snd (getServices_loop replies sent0 (target "ListServices")
                 (match token with
                  | Some t' => [(lit "cluster", JStr clusterName);
                                (lit "maxResults", JNum 50); (lit "nextToken", t')]
                  | None => [(lit "cluster", JStr clusterName);
                             (lit "maxResults", JNum 50)]
                  end) tok returnData))
    = sent0 ++ map (list_services_call clusterName) (Some tok :: map Some tokens)
    /\ Forall (fun t => truthy t = true) tokens
    /\ Forall2 (fun reply t => exists v, reply = Resolves v
                                          /\ get v (lit "nextToken") = Some t)
               (firstn (List.length tokens) replies) tokens.
Proof.
  induction replies as [|[v|e] rest IH]; intros sent0 token tok returnData;
    cbn [getServices_loop]; rewrite set_token.
  - exists []. cbn. auto.
  - assert (Hstop : forall out : Outcome (list INodePropertyOptions),
      exists tokens,
        sent (snd (out, {| pending := rest;
                           sent := sent0 ++ [Build_Request "ecs" "POST" "/"
                             (JObj [(lit "cluster", JStr clusterName);
                                    (lit "maxResults", JNum 50); (lit "nextToken", tok)])
                             (target "ListServices")] |}))
        = sent0 ++ map (list_services_call clusterName) (Some tok :: map Some tokens)
        /\ Forall (fun t => truthy t = true) tokens
        /\ Forall2 (fun reply t => exists v0, reply = Resolves v0
                                               /\ get v0 (lit "nextToken") = Some t)
                   (firstn (List.length tokens) (Resolves v :: rest)) tokens).
    { intros out. exists []. cbn. auto. }
    destruct (get v (lit "serviceArns")) as [sa|]; [|apply Hstop].
    destruct (array_map option_of sa) as [more|]; [|apply Hstop].
    destruct (get v (lit "nextToken")) as [t|] eqn:Et; [|apply Hstop].
    destruct (truthy t) eqn:Ht; cbn [negb]; [|apply Hstop].
    match goal with
    | |- context [getServices_loop rest ?s _ _ t ?a] =>
        destruct (IH s (Some tok) t a) as (tokens & Hs & Htr & Hch)
    end.
    exists (t :: tokens). split; [|split].
    + cbn [snd sent] in *. rewrite Hs, <- app_assoc. reflexivity.
    + now constructor.
    + cbn [List.length firstn]. constructor; eauto.
  - exists []. cbn. auto.
Qed.

(** X3. With a non-empty [clusterName], whatever the replies are,
    [getServices] sends only ListServices requests for that cluster with
    [maxResults] 50: the first without [nextToken], each later one with the
    truthy [nextToken] of the reply before it.  It never changes the
    cluster or the page size and never sends a falsy token. *)
Theorem getServices_requests (this : ILoadOptionsFunctions) (w : World) :
  load_clusterName this <> [] ->
  exists tokens,
    sent (snd (getServices this w))
    = sent w ++ map (list_services_call (load_clusterName this)) (None :: map Some tokens)
    /\ Forall (fun t => truthy t = true) tokens
    /\ Forall2 (fun reply t => exists v, reply = Resolves v
                                          /\ get v (lit "nextToken") = Some t)
               (firstn (List.length tokens) (pending w)) tokens.
Proof.
  intros Hname. unfold getServices.
  destruct (load_clusterName this) as [|c name]; [congruence|].
  cbn [truthy negb]. unfold bind, awsApiRequest, must, ret.
  assert (Hstop : forall (out : Outcome (list INodePropertyOptions)) rest,
    exists tokens,
      sent (snd (out, {| pending := rest;
                         sent := sent w ++ [Build_Request "ecs" "POST" "/"
                           (JObj [(lit "cluster", JStr (c :: name));
                                  (lit "maxResults", JNum 50)])
                           (target "ListServices")] |}))
      = sent w ++ map (list_services_call (c :: name)) (None :: map Some tokens)
      /\ Forall (fun t => truthy t = true) tokens
      /\ Forall2 (fun reply t => exists v, reply = Resolves v
                                            /\ get v (lit "nextToken") = Some t)
                 (firstn (List.length tokens) (pending w)) tokens).
  { intros out rest. exists []. cbn. auto. }
  destruct (pending w) as [|[v|e] rest] eqn:Ew; try apply Hstop.
  destruct (get v (lit "serviceArns")) as [sa|]; [|apply Hstop].
  destruct (negb (truthy sa)); [apply Hstop|].
  destruct (array_map option_of sa) as [first|]; [|apply Hstop].
  destruct (get v (lit "nextToken")) as [t|] eqn:Et; [|apply Hstop].
  destruct (truthy t) eqn:Ht; [|apply Hstop].
  cbn [pending sent].
  match goal with
  | |- context [getServices_loop rest ?s _ _ t ?a] =>
      destruct (getServices_loop_requests (c :: name) rest s None t a)
        as (tokens & Hs & Htr & Hch)
  end.
  exists (t :: tokens). split; [|split].
  - rewrite Hs, <- app_assoc. reflexivity.
  - now constructor.
  - cbn [List.length firstn]. constructor; eauto.
Qed.

Lemma getServices_requests_witness :
  let this := {| load_clusterName := lit "prod" |} in
  let w := {| pending := [ Resolves (JObj [(lit "serviceArns", JArr []);
                                           (lit "nextToken", JNum 3)]);
                           Resolves (JObj [(lit "serviceArns", JArr [])]) ];
              sent := [] |} in
  exists tokens,
    sent (snd (getServices this w))
    = sent w ++ map (list_services_call (load_clusterName this)) (None :: map Some tokens)
    /\ Forall (fun t => truthy t = true) tokens
    /\ Forall2 (fun reply t => exists v, reply = Resolves v
                                          /\ get v (lit "nextToken") = Some t)
               (firstn (List.length tokens) (pending w)) tokens.
Proof.
  intros this w. apply (getServices_requests this w). discriminate.
Defined.

Example getServices_requests_example :
  sent (snd (getServices {| load_clusterName := lit "prod" |}
               {| pending := [ Resolves (JObj [(lit "serviceArns", JArr []);
                                               (lit "nextToken", JNum 3)]);
                               Resolves (JObj [(lit "serviceArns", JArr [])]) ];
                  sent := [] |}))
  = [list_services_call (lit "prod") None;
     list_services_call (lit "prod") (Some (JNum 3))].
Proof. reflexivity. Qed.

(** X4. The first response of [getServices] is guarded only against a
    falsy [serviceArns]: a [null] or [undefined] response, or a
    [serviceArns] that is truthy but not an array, makes it throw a
    TypeError after its first request. *)
Theorem getServices_first_response_errors (this : ILoadOptionsFunctions) (v : JsValue)
    (rest : list Reply) (sent0 : list Request) :
  load_clusterName this <> [] ->
  get v (lit "serviceArns") = None
  \/ (exists sa, get v (lit "serviceArns") = Some sa
                 /\ truthy sa = true
                 /\ forall elements, sa <> JArr elements) ->
  getServices this {| pending := Resolves v :: rest; sent := sent0 |}
  = (Threw TypeError,
     {| pending := rest;
        sent := sent0 ++ [list_services_call (load_clusterName this) None] |}).
Proof.
  intros Hname Hv. unfold getServices.
  destruct (load_clusterName this) as [|c name]; [congruence|].
  cbn [truthy negb]. unfold bind, awsApiRequest, must, ret. cbn [pending sent].
  destruct Hv as [->|(sa & -> & Hsa & Harr)]; [reflexivity|].
  rewrite Hsa. cbn [negb].
  destruct sa; try reflexivity. now destruct (Harr elements).
Qed.

Lemma getServices_first_response_errors_witness :
  getServices {| load_clusterName := lit "prod" |}
    {| pending := [Resolves (JObj [(lit "serviceArns", JStr (lit "arn:a"))])];
       sent := [] |}
  = (Threw TypeError,
     {| pending := [];
        sent := [] ++ [list_services_call (lit "prod") None] |}).
Proof.
  apply (getServices_first_response_errors {| load_clusterName := lit "prod" |}
           (JObj [(lit "serviceArns", JStr (lit "arn:a"))]) [] []).
  - discriminate.
  - right. exists (JStr (lit "arn:a")). split; [reflexivity|].
    split; [reflexivity|discriminate].
Defined.

(** * Further properties of [execute] *)

(** X5. For both operations, a falsy response ([null], [undefined], [false],
    [0], [NaN] or the empty string) is not an error: the request has been
    sent, and [execute] returns one output list with no item in it. *)
Theorem execute_falsy_response (this : IExecuteFunctions) (w : World)
    (responseData : JsValue) (rest : list Reply) :
  operation this = lit "describeServices" \/ operation this = lit "forceNewDeployment" ->
  pending w = Resolves responseData :: rest ->
  truthy responseData = false ->
  exists r,
    execute this w = (Returned [[]], {| pending := rest; sent := sent w ++ [r] |}).
Proof.
  intros Hop Hw Hfalsy.
  destruct Hop as [H|H];
    [rewrite (execute_describeServices _ _ H) | rewrite (execute_forceNewDeployment _ _ H)];
    unfold relay; rewrite Hw, Hfalsy; eexists; reflexivity.
Qed.

Lemma execute_falsy_response_witness :
  exists r,
    execute {| operation := lit "forceNewDeployment"; clusterName := JStr (lit "prod");
               serviceNames := []; serviceName := JStr (lit "web"); desiredCount := 2 |}
      {| pending := [Resolves (JStr [])]; sent := [] |}
    = (Returned [[]], {| pending := []; sent := [] ++ [r] |}).
Proof.
  apply (execute_falsy_response _ {| pending := [Resolves (JStr [])]; sent := [] |}
           (JStr []) []).
  - right; reflexivity.
  - reflexivity.
  - reflexivity.
Defined.

(** X6. Whenever [execute] returns, for any operation, it returns exactly
    one output list holding at most one item; an item is the truthy
    response of the one call it awaited, paired with input item 0. *)
Theorem execute_output_shape (this : IExecuteFunctions) (w w' : World)
    (out : list (list INodeExecutionData)) :
  execute this w = (Returned out, w') ->
  exists items,
    out = [items]
    /\ (items = []
        \/ exists responseData,
             items = [{| json := responseData; pairedItem := {| item := 0 |} |}]
             /\ truthy responseData = true
             /\ hd_error (pending w) = Some (Resolves responseData)).
Proof.
  rewrite execute_cases.
  assert (Hrelay : forall r,
    relay r w = (Returned out, w') ->
    exists items,
      out = [items]
      /\ (items = []
          \/ exists responseData,
               items = [{| json := responseData; pairedItem := {| item := 0 |} |}]
               /\ truthy responseData = true
               /\ hd_error (pending w) = Some (Resolves responseData))).
  { intros r. unfold relay. destruct (pending w) as [|[v|e] rest]; try discriminate.
    intros H. injection H as <- _.
    eexists; split; [reflexivity|].
    destruct (truthy v) eqn:Hv; [right|left; reflexivity].
    exists v. auto. }
  destruct (jsstring_eqb (operation this) (lit "describeServices")); [apply Hrelay|].
  destruct (jsstring_eqb (operation this) (lit "forceNewDeployment")); [apply Hrelay|].
  intros H. injection H as <- _. exists []. auto.
Qed.

Lemma execute_output_shape_witness :
  let this := {| operation := lit "describeServices"; clusterName := JStr (lit "prod");
                 serviceNames := lit "web"; serviceName := JUndefined;
                 desiredCount := (-1) |} in
  let response := JObj [(lit "services", JArr [])] in
  let w := {| pending := [Resolves response; Resolves JNull]; sent := [] |} in
  exists items,
    [[{| json := response; pairedItem := {| item := 0 |} |}]] = [items]
    /\ (items = []
        \/ exists responseData,
             items = [{| json := responseData; pairedItem := {| item := 0 |} |}]
             /\ truthy responseData = true
             /\ hd_error (pending w) = Some (Resolves responseData)).
Proof.
  intros this response w.
  apply (execute_output_shape this w (snd (execute this w))
           [[{| json := response; pairedItem := {| item := 0 |} |}]]).
  reflexivity.
Defined.

Lemma shown_operation (this this' : IExecuteFunctions) :
  (forall p, In p properties ->
             shown_for (operation this) p = true ->
             getNodeParameter this (property_name p)
             = getNodeParameter this' (property_name p)) ->
  operation this = operation this'.
Proof.
  intros H.
  assert (E := H _ (or_introl eq_refl) eq_refl).
  cbn in E. now injection E.
Qed.

(** X7. [execute] reads only the parameters that the description shows
    for the selected operation: two parameter sets that agree on every
    property whose [displayOptions.show.operation] lists the operation (or
    that has no such list) give the same run. *)
Theorem execute_reads_shown_parameters (this this' : IExecuteFunctions) (w : World) :
  (forall p, In p properties ->
             shown_for (operation this) p = true ->
             getNodeParameter this (property_name p)
             = getNodeParameter this' (property_name p)) ->
  execute this w = execute this' w.
Proof.
  intros H. pose proof (shown_operation _ _ H) as Hop.
  rewrite !execute_cases, <- Hop.
  destruct (jsstring_eqb (operation this) (lit "describeServices")) eqn:Ed.
  - apply jsstring_eqb_eq in Ed. rewrite Ed in H.
    assert (Ec := H _ (or_intror (or_introl eq_refl)) eq_refl).
    assert (En := H _ (or_intror (or_intror (or_intror (or_introl eq_refl)))) eq_refl).
    cbn in Ec, En. injection En as En. now rewrite Ec, En.
  - destruct (jsstring_eqb (operation this) (lit "forceNewDeployment")) eqn:Ef;
      [|reflexivity].
    apply jsstring_eqb_eq in Ef. rewrite Ef in H.
    assert (Ec := H _ (or_intror (or_introl eq_refl)) eq_refl).
    assert (Es := H _ (or_intror (or_intror (or_introl eq_refl))) eq_refl).
    assert (En := H _ (or_intror (or_intror (or_intror (or_intror (or_introl eq_refl)))))
                    eq_refl).
    cbn in Ec, Es, En. injection En as En. now rewrite Ec, Es, En.
Qed.

Lemma execute_reads_shown_parameters_witness :
  let this := {| operation := lit "describeServices"; clusterName := JStr (lit "prod");
                 serviceNames := lit "web,api"; serviceName := JStr (lit "one");
                 desiredCount := 4 |} in
  let this' := {| operation := lit "describeServices"; clusterName := JStr (lit "prod");
                  serviceNames := lit "web,api"; serviceName := JNull;
                  desiredCount := (-1) |} in
  let w := {| pending := [Resolves (JObj [])]; sent := [] |} in
  execute this w = execute this' w.
Proof.
  intros this this' w. apply (execute_reads_shown_parameters this this' w).
  intros p Hp Hshown.
  repeat (destruct Hp as [<-|Hp]; [try reflexivity; discriminate Hshown|]).
  destruct Hp.
Defined.

(** X8. The operations that [execute] acts on are the ones the
    [operation] property offers: it sends a request exactly when the
    operation is one of the offered values, and the default operation is
    among them. *)
Theorem execute_sends_iff_offered (this : IExecuteFunctions) (w : World) :
  ((exists r, sent (snd (execute this w)) = sent w ++ [r])
   <-> In (operation this) offered_operations)
  /\ (exists p, In p properties
                /\ property_name p = "operation"
                /\ exists op, default p = JStr op /\ In op offered_operations).
Proof.
  split.
  - rewrite execute_cases.
    change (offered_operations) with [lit "describeServices"; lit "forceNewDeployment"].
    destruct (jsstring_eqb (operation this) (lit "describeServices")) eqn:Ed.
    + apply jsstring_eqb_eq in Ed. rewrite relay_sent. split.
      * intros _. left. now symmetry.
      * intros _. eexists; reflexivity.
    + destruct (jsstring_eqb (operation this) (lit "forceNewDeployment")) eqn:Ef.
      * apply jsstring_eqb_eq in Ef. rewrite relay_sent. split.
        -- intros _. right; left. now symmetry.
        -- intros _. eexists; reflexivity.
      * cbn [snd]. split.
        -- intros [r Hr]. rewrite <- (app_nil_r (sent w)) in Hr at 1.
           apply app_inv_head in Hr. discriminate.
        -- intros [H|[H|[]]]; rewrite <- H, jsstring_eqb_refl in *; discriminate.
  - eexists. split; [left; reflexivity|]. split; [reflexivity|].
    eexists. split; [reflexivity|]. right; left; reflexivity.
Qed.

(** * Further properties of the service names *)

Lemma trim_start_nil_iff (s : jsstring) :
  trim_start s = [] <-> Forall (fun c => is_whitespace c = true) s.
Proof.
  induction s as [|c s IH]; cbn [trim_start].
  - split; [constructor|reflexivity].
  - destruct (is_whitespace c) eqn:Ec.
    + rewrite IH. split; [now constructor|]. intros H; now inversion H.
    + split; [discriminate|]. intros H; inversion H; congruence.
Qed.

Lemma trim_nil_iff (s : jsstring) :
  trim s = [] <-> Forall (fun c => is_whitespace c = true) s.
Proof.
  unfold trim, trim_end. split.
  - intros H. apply (f_equal (@rev N)) in H. rewrite rev_involutive in H. cbn in H.
    apply trim_start_nil_iff in H.
    destruct (trim_start_spec s) as (l & Hs & Hl & _).
    rewrite Hs. apply Forall_app. split; [assumption|].
    apply Forall_forall. intros c Hc. apply in_rev in Hc.
    now apply (proj1 (Forall_forall _ _) H).
  - intros H. apply trim_start_nil_iff in H. now rewrite H.
Qed.

Lemma split_blank (raw : jsstring) :
  Forall (Forall (fun c => is_whitespace c = true)) (split comma raw)
  <-> Forall blank raw.
Proof.
  induction raw as [|c raw IH]; cbn [split].
  - split; intros _; repeat constructor.
  - destruct (N.eqb_spec c comma) as [->|Hc].
    + split.
      * intros H. inversion H; subst. constructor; [now left|now apply IH].
      * intros H. inversion H; subst. constructor; [constructor|now apply IH].
    + pose proof (split_not_nil comma raw) as Hne.
      destruct (split comma raw) as [|seg segs]; [contradiction|].
      split.
      * intros H. inversion H as [|? ? Hseg Hsegs]; subst.
        inversion Hseg; subst.
        constructor; [now right|]. apply IH. now constructor.
      * intros H. inversion H as [|? ? [Hb|Hb] Hraw]; subst; [contradiction|].
        apply IH in Hraw. inversion Hraw; subst.
        constructor; [now constructor|assumption].
Qed.

Lemma parse_services_nil_iff (raw : jsstring) :
  parse_services raw = [] <-> Forall blank raw.
Proof.
  rewrite <- split_blank. unfold parse_services.
  induction (split comma raw) as [|seg segs IH]; cbn [map filter].
  - split; [constructor|reflexivity].
  - destruct (trim seg) as [|c t] eqn:Et; cbn [truthy].
    + apply trim_nil_iff in Et. rewrite IH. split; [now constructor|].
      intros H; now inversion H.
    + split; [discriminate|]. intros H. inversion H as [|? ? Hseg _]; subst.
      apply trim_nil_iff in Hseg. congruence.
Qed.

(** X9. For 'describeServices' there is no check that a service was
    named: the request goes out with an empty [services] array exactly
    when the [serviceNames] parameter holds nothing but commas and
    whitespace (the empty string included). *)
Theorem describeServices_blank_names (this : IExecuteFunctions) (w : World) :
  operation this = lit "describeServices" ->
  (sent (snd (execute this w))
   = sent w ++ [describe_services_request (clusterName this) []]
   <-> Forall blank (serviceNames this)).
Proof.
  intros Hop. rewrite (execute_describeServices _ _ Hop), relay_sent.
  rewrite <- parse_services_nil_iff. split.
  - intros H. apply app_inv_head in H. injection H as H.
    now apply map_eq_nil in H.
  - intros ->. reflexivity.
Qed.

Lemma describeServices_blank_names_witness :
  let this := {| operation := lit "describeServices"; clusterName := JStr (lit "prod");
                 serviceNames := lit " , ,"; serviceName := JUndefined;
                 desiredCount := (-1) |} in
  let w := {| pending := []; sent := [] |} in
  sent (snd (execute this w))
  = sent w ++ [describe_services_request (clusterName this) []]
  <-> Forall blank (serviceNames this).
Proof.
  intros this w. apply (describeServices_blank_names this w). reflexivity.
Defined.

Lemma parse_services_plain_names (raw : jsstring) :
  Forall plain_name (parse_services raw).
Proof.
  apply Forall_forall. intros s Hs. unfold parse_services in Hs.
  apply filter_In in Hs as [Hs Hne]. apply in_map_iff in Hs as (seg & <- & Hseg).
  pose proof (proj1 (Forall_forall _ _) (split_no_sep comma raw) seg Hseg) as Hcomma.
  destruct (trim_spec seg) as (l & r & Eseg & _ & _ & Hws).
  split; [|split].
  - intros E. rewrite E in Hne. discriminate.
  - intros Hin. apply Hcomma. rewrite Eseg.
    apply in_or_app; right. apply in_or_app; now left.
  - assumption.
Qed.

(** X10. Every element of the [services] array is a plain name: not
    empty, without a comma, without whitespace around it.  So the array is
    stable: written out again with commas and read once more, it comes back
    as it is. *)
Theorem parse_services_stable (raw : jsstring) :
  Forall plain_name (parse_services raw)
  /\ parse_services (join comma (parse_services raw)) = parse_services raw.
Proof.
  split; [apply parse_services_plain_names|].
  destruct (parse_services raw) as [|s services] eqn:E; [reflexivity|].
  apply parse_services_plain; [discriminate|].
  rewrite <- E. apply parse_services_plain_names.
Qed.

Lemma split_length (sep : N) (s : jsstring) :
  List.length (split sep s) = S (count_occ N.eq_dec s sep).
Proof.
  induction s as [|c s IH]; [reflexivity|].
  cbn [split count_occ]. destruct (N.eqb_spec c sep) as [->|Hc].
  - destruct (N.eq_dec sep sep) as [_|Hn]; [|congruence].
    cbn [List.length]. now rewrite IH.
  - destruct (N.eq_dec c sep) as [Heq|_]; [congruence|].
    pose proof (split_not_nil sep s) as Hne.
    destruct (split sep s) as [|seg segs]; [contradiction|]. exact IH.
Qed.

Lemma filter_length_bound {A : Type} (f : A -> bool) (l : list A) :
  List.length (filter f l) <= List.length l.
Proof.
  induction l as [|x l IH]; [reflexivity|].
  cbn [filter]. destruct (f x); cbn [List.length]; lia.
Qed.

(** X11. The [services] array of a 'describeServices' request has at most
    one element more than the [serviceNames] parameter has commas. *)
Theorem parse_services_length (raw : jsstring) :
  List.length (parse_services raw) <= S (count_occ N.eq_dec raw comma).
Proof.
  unfold parse_services.
  etransitivity; [apply filter_length_bound|].
  now rewrite length_map, split_length.
Qed.
